(** * crashtest: a shallow embedding of [crashtest.c]

    The module exposes a pseudo-file.  Reading it lists the names of the
    supported crash types ([procfs_read]); writing a name to it runs the
    matching crash routine ([procfs_write], [parse_ct_type], [do_crash]).

    Conventions of the embedding:
    - a C [int], [size_t] or [ssize_t] is a [Z]; the one place where the
      code can leave the range of its type ([recur_count--]) has the
      wrap-around written out;
    - a [char] is an [ascii]; a [char] array is a [list ascii]; the C string
      stored in an array is the [string] of the bytes before the first NUL;
    - the statics of the module and the effects of the kernel services it
      calls live in a record [kstate], threaded by a small monad whose
      result says whether control came back to the caller;
    - the kernel stack is not part of that state: the room left on it is
      an argument of [recursive_loop], the one routine whose course
      depends on it, and a write that runs over a local array ends the
      run, since the function that owns the array cannot return. *)

From Stdlib Require Import ZArith List String Ascii Lia Bool.
From stdpp Require Import base list strings.
From Equations Require Import Equations.
Import ListNotations.

Open Scope string_scope.
Open Scope list_scope.
Open Scope Z_scope.

(** ** The catalog: [enum ctype] and the name table [ct_type] *)

Inductive ctype : Set :=
| CT_NONE
| CT_PANIC
| CT_BUG
| CT_EXCEPTION
| CT_LOOP
| CT_OVERFLOW
| CT_CORRUPT_STACK
| CT_UNALIGNED_LOAD_STORE_WRITE
| CT_OVERWRITE_ALLOCATION
| CT_WRITE_AFTER_FREE
| CT_SOFTLOCKUP
| CT_HARDLOCKUP
| CT_HUNG_TASK
| CT_SCHEDULING_WHILE_ATOMIC
| CT_DEADLOCK.

(** The integer an enumerator stands for: C numbers them from 0 in
    declaration order. *)
Definition ctype_val (k : ctype) : Z :=
  match k with
  | CT_NONE => 0
  | CT_PANIC => 1
  | CT_BUG => 2
  | CT_EXCEPTION => 3
  | CT_LOOP => 4
  | CT_OVERFLOW => 5
  | CT_CORRUPT_STACK => 6
  | CT_UNALIGNED_LOAD_STORE_WRITE => 7
  | CT_OVERWRITE_ALLOCATION => 8
  | CT_WRITE_AFTER_FREE => 9
  | CT_SOFTLOCKUP => 10
  | CT_HARDLOCKUP => 11
  | CT_HUNG_TASK => 12
  | CT_SCHEDULING_WHILE_ATOMIC => 13
  | CT_DEADLOCK => 14
  end.

(** The [case] label, if any, that an integer selects in a [switch] over
    [enum ctype]. *)
Definition ctype_of_val (v : Z) : option ctype :=
  match v with
  | 0 => Some CT_NONE
  | 1 => Some CT_PANIC
  | 2 => Some CT_BUG
  | 3 => Some CT_EXCEPTION
  | 4 => Some CT_LOOP
  | 5 => Some CT_OVERFLOW
  | 6 => Some CT_CORRUPT_STACK
  | 7 => Some CT_UNALIGNED_LOAD_STORE_WRITE
  | 8 => Some CT_OVERWRITE_ALLOCATION
  | 9 => Some CT_WRITE_AFTER_FREE
  | 10 => Some CT_SOFTLOCKUP
  | 11 => Some CT_HARDLOCKUP
  | 12 => Some CT_HUNG_TASK
  | 13 => Some CT_SCHEDULING_WHILE_ATOMIC
  | 14 => Some CT_DEADLOCK
  | _ => None
  end.

Definition ct_type : list string :=
  [ "PANIC";
    "BUG";
    "EXCEPTION";
    "LOOP";
    "OVERFLOW";
    "CORRUPT_STACK";
    "UNALIGNED_LOAD_STORE_WRITE";
    "OVERWRITE_ALLOCATION";
    "WRITE_AFTER_FREE";
    "SOFTLOCKUP";
    "HARDLOCKUP";
    "HUNG_TASK";
    "SCHEDULING_WHILE_ATOMIC";
    "DEADLOCK" ].

Definition ARRAY_SIZE {A : Type} (arr : list A) : Z := Z.of_nat (length arr).

(** ** Kernel string helpers used by the module

    [strcmp], [isspace], [skip_spaces] and [strim] belong to the kernel's
    string library, not to this module; they are written here after
    lib/string.c, lib/string_helpers.c and lib/ctype.c. *)

Definition NUL : ascii := "000"%char.

(** [strcmp] walks both strings and compares them as unsigned bytes; the
    end of a [string] stands for its terminating NUL, the smallest byte. *)
Fixpoint strcmp (cs ct : string) : Z :=
  match cs, ct with
  | EmptyString, EmptyString => 0
  | EmptyString, String _ _ => -1
  | String _ _, EmptyString => 1
  | String c1 cs', String c2 ct' =>
      if Ascii.eqb c1 c2 then strcmp cs' ct'
      else if (N_of_ascii c1 <? N_of_ascii c2)%N then -1 else 1
  end.

(** The kernel's [_ctype] table marks as white space the bytes 9 to 13
    (tab, line feed, vertical tab, form feed, carriage return), 32 (space)
    and 160 (the Latin-1 no-break space). *)
Definition isspace (c : ascii) : bool :=
  let n := N_of_ascii c in
  ((9 <=? n) && (n <=? 13) || (n =? 32) || (n =? 160))%N.

(** The C string held in a buffer: the bytes before the first NUL. *)
Fixpoint cstr (buf : list ascii) : string :=
  match buf with
  | [] => EmptyString
  | c :: rest => if Ascii.eqb c NUL then EmptyString else String c (cstr rest)
  end.

Definition strlen (buf : list ascii) : nat := String.length (cstr buf).

(** [skip_spaces(str)]: the offset of the first byte that is not white
    space. *)
Fixpoint skip_spaces (buf : list ascii) : nat :=
  match buf with
  | [] => O
  | c :: rest => if isspace c then S (skip_spaces rest) else O
  end.

(** The loop of [strim], [while (end >= s && isspace( *end)) end--], with
    [k] standing for [end - s + 1]. *)
Fixpoint strim_end (s : list ascii) (k : nat) : nat :=
  match k with
  | O => O
  | S k' =>
      match s !! k' with
      | Some c => if isspace c then strim_end s k' else k
      | None => k
      end
  end.

(** [strim(s)] cuts the trailing white space off [s] in place, by writing
    a NUL after the last byte that is not white space, and returns a
    pointer to the first byte of [s] that is not white space: the leading
    white space stays in the buffer, only the returned offset skips it. *)
Definition strim (s : list ascii) : list ascii * nat :=
  let size := strlen s in
  if (size =? 0)%nat then (s, O)
  else
    let s' := <[strim_end s size := NUL]> s in
    (s', skip_spaces s').

(** ** [parse_ct_type] *)

(** The [for] loop of [parse_ct_type] from index [i] on, [rest] being the
    entries [ct_type[i]], [ct_type[i+1]], ... still to be compared. *)
Fixpoint parse_ct_type_from (i : Z) (rest : list string) (what : string) : Z :=
  match rest with
  | [] => ctype_val CT_NONE
  | name :: rest' =>
      if strcmp what name =? 0 then i + 1
      else parse_ct_type_from (i + 1) rest' what
  end.

Definition parse_ct_type (what : string) : Z :=
  parse_ct_type_from 0 ct_type what.

(** ** [procfs_read]

    A [seq_file] is the text printed into it so far; [seq_printf] with the
    format ["%s\n"] appends the string and a line feed. *)

Definition LF : ascii := "010"%char.

Definition seq_file : Set := string.

Definition seq_printf_line (m : seq_file) (s : string) : seq_file :=
  m +:+ s +:+ String LF EmptyString.

Fixpoint procfs_read_from (rest : list string) (m : seq_file) : seq_file :=
  match rest with
  | [] => m
  | name :: rest' => procfs_read_from rest' (seq_printf_line m name)
  end.

Definition procfs_read (m : seq_file) : seq_file * Z :=
  (procfs_read_from ct_type m, 0).

(** ** Kernel state and effects *)

(** What the build fixes and the source leaves open: the size of a kernel
    stack, the size of [unsigned long], the byte order, the bytes of the
    stack that are taken when [do_crash] runs, and the bytes a frame of
    [recursive_loop] takes besides its buffer (return address, saved
    registers). *)
Record arch : Set := {
  THREAD_SIZE : Z;
  sizeof_unsigned_long : Z;
  big_endian : bool;
  stack_in_use : Z;
  frame_overhead : Z
}.

(** An x86_64 build; the last two numbers change with the compiler and the
    path of the call, and serve in examples only. *)
Definition x86_64 : arch :=
  {| THREAD_SIZE := 16384; sizeof_unsigned_long := 8; big_endian := false;
     stack_in_use := 2048; frame_overhead := 32 |}.

(** The bytes of stack left for what [do_crash] calls. *)
Definition stack_room (cfg : arch) : Z := THREAD_SIZE cfg - stack_in_use cfg.

(** The two spin locks declared in [deadlock_splat]. *)
Inductive spinlock : Set := lock1 | lock2.

(** Where a pointer of the module points: nowhere, to a local array of the
    given size, to the static [align_data], or to the heap block with the
    given number. *)
Inductive ptr : Set :=
| NULL
| PStack (size : Z)
| PAlignData
| PHeap (blk : nat).

(** The calls into the kernel and the memory accesses, in program order. *)
Inductive event : Set :=
| EvMemset (dst : ptr) (off : Z) (c : Z) (n : Z)
| EvLoad (src : ptr) (off : Z) (width : Z)
| EvStore (dst : ptr) (off : Z) (width : Z) (val : Z)
| EvKmalloc (len : Z) (p : ptr)
| EvKfree (p : ptr)
| EvSpinLock (l : spinlock)
| EvSpinUnlock (l : spinlock)
| EvDownRead
| EvReadLock
| EvScheduleTimeoutInterruptible (timeout : Z)
| EvReadUnlock
| EvUpRead
| EvSchedule
| EvPreemptDisable
| EvLocalIrqDisable
| EvSetCurrentStateUninterruptible.

(** A heap block: its size and whether it is still allocated. *)
Record block : Set := { blk_size : Z; blk_live : bool }.

Record kstate : Set := {
  recur_count : Z;            (* static int recur_count, in recursive_loop *)
  lock1_locked : bool;        (* static spinlock lock1, in deadlock_splat *)
  lock2_locked : bool;        (* static spinlock lock2, in deadlock_splat *)
  align_data : list Z;        (* static u8 align_data[5], in do_crash *)
  uninterruptible : bool;     (* the state of the current task *)
  heap : list block;          (* the blocks handed out by kmalloc *)
  oom : bool;                 (* kmalloc has nothing to give *)
  corrupted : bool;           (* a write has left the object it aimed at *)
  trace : list event
}.

(** The state right after [insmod]: the statics hold their initializers. *)
Definition boot : kstate :=
  {| recur_count := 40;
     lock1_locked := false;
     lock2_locked := false;
     align_data := [1; 2; 3; 4; 5];
     uninterruptible := false;
     heap := [];
     oom := false;
     corrupted := false;
     trace := [] |}.

Definition set_recur_count (v : Z) (s : kstate) : kstate :=
  {| recur_count := v; lock1_locked := lock1_locked s;
     lock2_locked := lock2_locked s; align_data := align_data s;
     uninterruptible := uninterruptible s; heap := heap s; oom := oom s;
     corrupted := corrupted s; trace := trace s |}.

Definition set_locked (l : spinlock) (v : bool) (s : kstate) : kstate :=
  {| recur_count := recur_count s;
     lock1_locked := match l with lock1 => v | lock2 => lock1_locked s end;
     lock2_locked := match l with lock1 => lock2_locked s | lock2 => v end;
     align_data := align_data s;
     uninterruptible := uninterruptible s; heap := heap s; oom := oom s;
     corrupted := corrupted s; trace := trace s |}.

Definition set_align_data (v : list Z) (s : kstate) : kstate :=
  {| recur_count := recur_count s; lock1_locked := lock1_locked s;
     lock2_locked := lock2_locked s; align_data := v;
     uninterruptible := uninterruptible s; heap := heap s; oom := oom s;
     corrupted := corrupted s; trace := trace s |}.

Definition set_uninterruptible (v : bool) (s : kstate) : kstate :=
  {| recur_count := recur_count s; lock1_locked := lock1_locked s;
     lock2_locked := lock2_locked s; align_data := align_data s;
     uninterruptible := v; heap := heap s; oom := oom s;
     corrupted := corrupted s; trace := trace s |}.

Definition set_heap (v : list block) (s : kstate) : kstate :=
  {| recur_count := recur_count s; lock1_locked := lock1_locked s;
     lock2_locked := lock2_locked s; align_data := align_data s;
     uninterruptible := uninterruptible s; heap := v; oom := oom s;
     corrupted := corrupted s; trace := trace s |}.

Definition set_corrupted (v : bool) (s : kstate) : kstate :=
  {| recur_count := recur_count s; lock1_locked := lock1_locked s;
     lock2_locked := lock2_locked s; align_data := align_data s;
     uninterruptible := uninterruptible s; heap := heap s; oom := oom s;
     corrupted := v; trace := trace s |}.

Definition log (e : event) (s : kstate) : kstate :=
  {| recur_count := recur_count s; lock1_locked := lock1_locked s;
     lock2_locked := lock2_locked s; align_data := align_data s;
     uninterruptible := uninterruptible s; heap := heap s; oom := oom s;
     corrupted := corrupted s; trace := trace s ++ [e] |}.

Definition locked (l : spinlock) (s : kstate) : bool :=
  match l with lock1 => lock1_locked s | lock2 => lock2_locked s end.

(** Why control does not come back from a call. *)
Inductive halt : Set :=
| Panic (msg : string)      (* panic() *)
| Bug                       (* BUG() *)
| Oops (addr : Z)           (* an access through the null pointer *)
| Forever                   (* a loop without exit *)
| Asleep                    (* asleep, with nobody to wake the task *)
| StackOverflow             (* a frame that does not fit on the stack *)
| Smashed.                  (* a write has run over a local array *)

Inductive outcome (A : Type) : Type :=
| Returned (a : A) (s : kstate)
| Halted (h : halt) (s : kstate).
Arguments Returned {A} a s.
Arguments Halted {A} h s.

Definition M (A : Type) : Type := kstate -> outcome A.

Definition ret {A : Type} (a : A) : M A := fun s => Returned a s.

Definition bind {A B : Type} (m : M A) (k : A -> M B) : M B :=
  fun s =>
    match m s with
    | Returned a s' => k a s'
    | Halted h s' => Halted h s'
    end.

Definition stop {A : Type} (h : halt) : M A := fun s => Halted h s.

Definition emit (e : event) : M unit := fun s => Returned tt (log e s).

Definition modify (f : kstate -> kstate) : M unit := fun s => Returned tt (f s).

Declare Scope kernel_scope.
Delimit Scope kernel_scope with kernel.
Notation "x <- c1 ;; c2" := (bind c1 (fun x => c2))
  (at level 20, c1 at level 99, c2 at level 200, only parsing) : kernel_scope.
Notation "c1 ;; c2" := (bind c1 (fun _ => c2))
  (at level 100, c2 at level 200, only parsing, right associativity)
  : kernel_scope.
Open Scope kernel_scope.

Definition final_state {A : Type} (o : outcome A) : kstate :=
  match o with Returned _ s => s | Halted _ s => s end.

Definition returns {A : Type} (o : outcome A) : bool :=
  match o with Returned _ _ => true | Halted _ _ => false end.

(** *** Memory *)

(** The size of the object a pointer points to, when it points to one that
    exists. *)
Definition object_size (s : kstate) (p : ptr) : option Z :=
  match p with
  | NULL => None
  | PStack size => Some size
  | PAlignData => Some 5
  | PHeap b =>
      match heap s !! b with
      | Some blk => if blk_live blk then Some (blk_size blk) else None
      | None => None
      end
  end.

(** An access to [n] bytes at offset [off] of [p], guarded: it fails when
    it does not lie within a live object. *)
Definition checked_access (s : kstate) (p : ptr) (off n : Z) : option unit :=
  match object_size s p with
  | Some size => if (0 <=? off) && (off + n <=? size) then Some tt else None
  | None => None
  end.

(** An access as C performs it, without a guard: through the null pointer
    it traps; elsewhere it goes ahead, and one that leaves its object is
    recorded in [corrupted].  One that leaves a local array lands in the
    frame that holds the array, over its canary, saved registers and
    return address: the function that owns the array does not return to
    its caller, and the run ends there. *)
Definition access (e : event) (p : ptr) (off n : Z) : M unit :=
  fun s =>
    match p with
    | NULL => Halted (Oops off) s
    | PStack _ =>
        match checked_access s p off n with
        | Some _ => Returned tt (log e s)
        | None => Halted Smashed (set_corrupted true (log e s))
        end
    | _ =>
        match checked_access s p off n with
        | Some _ => Returned tt (log e s)
        | None => Returned tt (set_corrupted true (log e s))
        end
    end.

Definition memset (dst : ptr) (c : Z) (n : Z) : M unit :=
  access (EvMemset dst 0 c n) dst 0 n.

Definition store (dst : ptr) (off width val : Z) : M unit :=
  access (EvStore dst off width val) dst off width.

Definition kmalloc (len : Z) : M ptr :=
  fun s =>
    if oom s then Returned NULL (log (EvKmalloc len NULL) s)
    else
      let p := PHeap (length (heap s)) in
      Returned p
        (log (EvKmalloc len p)
           (set_heap (heap s ++ [{| blk_size := len; blk_live := true |}]) s)).

Definition kfree (p : ptr) : M unit :=
  fun s =>
    match p with
    | PHeap b =>
        match heap s !! b with
        | Some blk =>
            Returned tt
              (log (EvKfree p)
                 (set_heap
                    (<[b := {| blk_size := blk_size blk; blk_live := false |}]>
                       (heap s)) s))
        | None => Returned tt (set_corrupted true (log (EvKfree p) s))
        end
    | NULL => Returned tt (log (EvKfree p) s)
    | _ => Returned tt (set_corrupted true (log (EvKfree p) s))
    end.

(** *** Scheduling and locks *)

(** [schedule()] comes back when the task is runnable; a task that went
    to sleep uninterruptibly stays asleep, since nothing in the module
    wakes it. *)
Definition schedule : M unit :=
  fun s =>
    if uninterruptible s then Halted Asleep (log EvSchedule s)
    else Returned tt (log EvSchedule s).

(** [spin_lock] on a lock that is held spins until the holder lets go;
    within one sequential call nobody does. *)
Definition spin_lock (l : spinlock) : M unit :=
  fun s =>
    if locked l s then Halted Forever s
    else Returned tt (log (EvSpinLock l) (set_locked l true s)).

Definition spin_unlock (l : spinlock) : M unit :=
  fun s => Returned tt (log (EvSpinUnlock l) (set_locked l false s)).

Definition panic {A : Type} (msg : string) : M A := stop (Panic msg).

Definition BUG {A : Type} : M A := stop Bug.

(** [for (;;) body]: control never leaves the loop. *)
Definition loop_forever {A : Type} : M A := stop Forever.

(** ** The crash routines *)

(** [int] arithmetic leaves its range only in [recur_count--]; the kernel
    is built with wrapping signed arithmetic. *)
Definition wrap_int (z : Z) : Z := (z + 2 ^ 31) mod 2 ^ 32 - 2 ^ 31.

Fixpoint le_decode (bytes : list Z) : Z :=
  match bytes with
  | [] => 0
  | b :: rest => b + 256 * le_decode rest
  end.

Fixpoint le_encode (n : nat) (v : Z) : list Z :=
  match n with
  | O => []
  | S n' => v mod 256 :: le_encode n' (v / 256)
  end.

Ltac wrap_arith :=
  unfold wrap_int in *;
  change (2 ^ 32) with 4294967296 in *;
  change (2 ^ 31) with 2147483648 in *;
  Z.div_mod_to_equations; lia.

Definition inspect {A : Type} (a : A) : {b : A | a = b} := exist _ a eq_refl.

Definition measure_recur (s : kstate) : nat :=
  Z.to_nat ((recur_count s - 1) mod 2 ^ 32).

Section Crash.

Variable cfg : arch.

Definition scheduling_while_atomic : M unit :=
  emit EvDownRead ;;
  emit EvReadLock ;;
  emit (EvScheduleTimeoutInterruptible 1) ;;
  emit EvReadUnlock ;;
  emit EvUpRead.

Definition deadlock_splat : M unit :=
  (* lock1 -> lock2 *)
  spin_lock lock1 ;;
  spin_lock lock2 ;;
  spin_unlock lock2 ;;
  spin_unlock lock1 ;;
  (* lock2 -> lock1 *)
  spin_lock lock2 ;;
  spin_lock lock1 ;;
  spin_unlock lock1 ;;
  spin_unlock lock2.

Definition BUFSIZE : Z := THREAD_SIZE cfg ÷ 8.

(** The bytes of stack a frame of [recursive_loop] takes: its buffer and
    what the call itself pushes. *)
Definition frame_size : Z := BUFSIZE + frame_overhead cfg.

(** A call of [recursive_loop] with [room] bytes of stack left: a frame
    that does not fit faults on the end of the stack. *)
Definition enter_frame (room : Z) : M unit :=
  fun s => if room <? frame_size then Halted StackOverflow s else Returned tt s.

(** One frame of [recursive_loop] up to its test: take the frame, fill the
    local buffer, decrement the static counter, and tell whether it
    reached zero. *)
Definition recursive_loop_frame (room : Z) : M bool :=
  enter_frame room ;;
  memset (PStack BUFSIZE) 0xff BUFSIZE ;;
  modify (fun s => set_recur_count (wrap_int (recur_count s - 1)) s) ;;
  fun s => Returned (recur_count s =? 0) s.

(** The recursion goes on until the counter is zero after the decrement,
    each call with a frame less of stack than its caller.  Counting down
    from any value, with wrap-around, reaches zero, which is what makes
    the definition total; with a stack that has an end the recursion stops
    before, when a frame does not fit. *)
Equations? recursive_loop (room : Z) (a : Z) (s : kstate) : outcome Z
  by wf (measure_recur s) lt :=
  recursive_loop room a s with inspect (recursive_loop_frame room s) := {
    | exist _ (Returned true s') _ => Returned 0 s'
    | exist _ (Returned false s') _ =>
        recursive_loop (room - frame_size) a s'
    | exist _ (Halted h s') _ => Halted h s' }.
Proof.
  unfold recursive_loop_frame, enter_frame, bind, memset, access,
    checked_access, modify in e.
  cbn [object_size] in e.
  destruct (room <? frame_size); [discriminate e|].
  destruct ((0 <=? 0) && (0 + BUFSIZE <=? BUFSIZE)); [|discriminate e].
  inversion e as [[Hzero Hs']]; clear e Hs'.
  unfold measure_recur. cbn [recur_count set_recur_count set_corrupted log].
  cbn [recur_count set_recur_count set_corrupted log] in Hzero.
  apply Z.eqb_neq in Hzero. wrap_arith.
Qed.

Definition corrupt_stack (stack : ptr) : M unit :=
  memset stack 0xff 64.

Definition decode_u32 (bytes : list Z) : Z :=
  if big_endian cfg then le_decode (rev bytes) else le_decode bytes.

Definition encode_u32 (v : Z) : list Z :=
  if big_endian cfg then rev (le_encode 4 v) else le_encode 4 v.

(** [*p] and [*p = val] for [p = (u32 * )(align_data + off)]. *)
Definition load_align_data (off : nat) : M Z :=
  access (EvLoad PAlignData (Z.of_nat off) 4) PAlignData (Z.of_nat off) 4 ;;
  fun s => Returned (decode_u32 (take 4 (drop off (align_data s)))) s.

Definition store_align_data (off : nat) (val : Z) : M unit :=
  store PAlignData (Z.of_nat off) 4 val ;;
  modify (fun s =>
    set_align_data
      (take off (align_data s) ++ encode_u32 val ++
       drop (off + 4) (align_data s)) s).

Definition do_crash (which : Z) : M unit :=
  match ctype_of_val which with
  | Some CT_PANIC =>
      panic "have a nice day... ;-)"
  | Some CT_BUG =>
      BUG
  | Some CT_EXCEPTION =>
      store NULL 0 4 0
  | Some CT_LOOP =>
      loop_forever
  | Some CT_OVERFLOW =>
      recursive_loop (stack_room cfg) 0 ;; ret tt
  | Some CT_CORRUPT_STACK =>
      let data := PStack 8 in
      corrupt_stack data
  | Some CT_UNALIGNED_LOAD_STORE_WRITE =>
      let val := 0x12345678 in
      v <- load_align_data 1 ;;
      let val := if v =? 0 then 0x87654321 else val in
      store_align_data 1 val
  | Some CT_OVERWRITE_ALLOCATION =>
      let len := 1020 in
      data <- kmalloc len ;;
      let i := 1024 ÷ sizeof_unsigned_long cfg in
      store data (i * sizeof_unsigned_long cfg) (sizeof_unsigned_long cfg)
        0x12345678 ;;
      kfree data
  | Some CT_WRITE_AFTER_FREE =>
      let len := 1024 in
      data <- kmalloc len ;;
      kfree data ;;
      schedule ;;
      memset data 0x78 len
  | Some CT_SOFTLOCKUP =>
      emit EvPreemptDisable ;;
      loop_forever
  | Some CT_HARDLOCKUP =>
      emit EvLocalIrqDisable ;;
      loop_forever
  | Some CT_HUNG_TASK =>
      emit EvSetCurrentStateUninterruptible ;;
      modify (set_uninterruptible true) ;;
      schedule
  | Some CT_SCHEDULING_WHILE_ATOMIC =>
      scheduling_while_atomic
  | Some CT_DEADLOCK =>
      deadlock_splat
  | Some CT_NONE
  | None =>
      ret tt
  end.

(** ** [procfs_write] *)

Definition E2BIG : Z := 7.
Definition EFAULT : Z := 14.

(** [copy_from_user(to, from, n)], [from] being the bytes that can be read
    at the user pointer: the bytes copied land at the start of [to], what
    could not be read is zeroed, and the result is the number of bytes that
    were not copied. *)
Definition copy_from_user (to from : list ascii) (n : Z)
  : list ascii * Z :=
  let k := Z.to_nat n in
  let got := take k from in
  (got ++ replicate (k - length got) NUL ++ drop k to,
   n - Z.of_nat (length got)).

(** The write handler, over the crash routine it calls: [procfs_write] is
    this function at [do_crash], and a statement about what the handler
    does without calling the routine can range over all routines. *)
Definition procfs_write_with (do_crash : Z -> M unit)
  (ubuf : list ascii) (count : Z) : M Z :=
  let buf := replicate 32 NUL in
  if count >? Z.of_nat (length buf) - 1 then ret (- E2BIG)
  else
    let '(buf, uncopied) := copy_from_user buf ubuf count in
    if negb (uncopied =? 0) then ret (- EFAULT)
    else
      (* NULL-terminate and remove newline at the end *)
      let buf := <[Z.to_nat count := NUL]> buf in
      let '(buf, _) := strim buf in
      (* Execute crash routine *)
      do_crash (parse_ct_type (cstr buf)) ;;
      ret count.

Definition procfs_write (ubuf : list ascii) (count : Z) : M Z :=
  procfs_write_with do_crash ubuf count.

End Crash.

(** The string that a write of [count] bytes hands to [parse_ct_type], once
    the size check and the copy have passed. *)
Definition request (ubuf : list ascii) (count : Z) : string :=
  let buf := fst (copy_from_user (replicate 32 NUL) ubuf count) in
  cstr (fst (strim (<[Z.to_nat count := NUL]> buf))).

(** The text a [seq_file] holds after the given lines were printed to it. *)
Definition unlines (lines : list string) : string :=
  foldr (fun l rest => l +:+ String LF rest) EmptyString lines.

(** The enumerators after [CT_NONE], in declaration order. *)
Definition ct_kinds : list ctype :=
  [ CT_PANIC; CT_BUG; CT_EXCEPTION; CT_LOOP; CT_OVERFLOW; CT_CORRUPT_STACK;
    CT_UNALIGNED_LOAD_STORE_WRITE; CT_OVERWRITE_ALLOCATION;
    CT_WRITE_AFTER_FREE; CT_SOFTLOCKUP; CT_HARDLOCKUP; CT_HUNG_TASK;
    CT_SCHEDULING_WHILE_ATOMIC; CT_DEADLOCK ].

(** A payload as the bytes of a string literal. *)
Definition bytes (s : string) : list ascii := list_ascii_of_string s.

(** The state with further events at the end of its trace. *)
Definition log_all (es : list event) (s : kstate) : kstate :=
  {| recur_count := recur_count s; lock1_locked := lock1_locked s;
     lock2_locked := lock2_locked s; align_data := align_data s;
     uninterruptible := uninterruptible s; heap := heap s; oom := oom s;
     corrupted := corrupted s; trace := trace s ++ es |}.

(** What a frame of [recursive_loop] leaves in the trace: its buffer of
    [BUFSIZE] bytes, filled with [0xff]. *)
Definition frame_fill (cfg : arch) : event :=
  EvMemset (PStack (BUFSIZE cfg)) 0 0xff (BUFSIZE cfg).



(** What makes a name survive [strim]: it is not empty, holds no NUL and
    does not end in white space. *)
Definition trim_stable (n : string) : bool :=
  match rev (bytes n) with
  | [] => false
  | c :: _ => negb (isspace c)
  end && forallb (fun x => negb (Ascii.eqb x NUL)) (bytes n).

(** ** What the extra properties are stated with *)

(** A string of bytes without the white space at its end. *)
Fixpoint rtrim (l : list ascii) : list ascii :=
  match l with
  | [] => []
  | c :: rest =>
      match rtrim rest with
      | [] => if isspace c then [] else [c]
      | r => c :: r
      end
  end.

(** The lines of a text, each ended by a line feed; [cur] holds, last byte
    first, the bytes of the line being read. *)
Fixpoint lines_of (cur : list ascii) (text : string) : list string :=
  match text with
  | EmptyString =>
      match cur with
      | [] => []
      | _ => [string_of_list_ascii (rev cur)]
      end
  | String c rest =>
      if Ascii.eqb c LF then string_of_list_ascii (rev cur) :: lines_of [] rest
      else lines_of (c :: cur) rest
  end.

(** A user who writes to the file one payload after the other, as long as
    the writes return. *)
Fixpoint write_all (cfg : arch) (writes : list (list ascii * Z)) : M (list Z) :=
  match writes with
  | [] => ret []
  | (ubuf, count) :: rest =>
      r <- procfs_write cfg ubuf count ;;
      rs <- write_all cfg rest ;;
      ret (r :: rs)
  end.

(** Whether a run of events sleeps while it holds a lock that forbids it,
    [depth] being the number of such locks held at the start: spin locks
    and the read side of an rwlock forbid sleeping, as do disabled
    preemption and disabled interrupts; the rwsem does not. *)
Fixpoint sleeps_atomic (depth : Z) (es : list event) : bool :=
  match es with
  | [] => false
  | e :: rest =>
      match e with
      | EvSpinLock _ | EvReadLock | EvPreemptDisable | EvLocalIrqDisable =>
          sleeps_atomic (depth + 1) rest
      | EvSpinUnlock _ | EvReadUnlock => sleeps_atomic (depth - 1) rest
      | EvSchedule | EvScheduleTimeoutInterruptible _ =>
          (0 <? depth) || sleeps_atomic depth rest
      | _ => sleeps_atomic depth rest
      end
  end.

(** The value [CT_UNALIGNED_LOAD_STORE_WRITE] stores, given the four bytes
    it loads. *)
Definition unaligned_val (cfg : arch) (loaded : list Z) : Z :=
  if decode_u32 cfg loaded =? 0 then 0x87654321 else 0x12345678.

(** Run the operations of the kernel monad, in the goal or in a
    hypothesis, as far as the state is known. *)
Ltac run_kernel :=
  cbv [bind ret stop emit modify panic BUG loop_forever
       log log_all set_recur_count set_locked set_align_data
       set_uninterruptible set_heap set_corrupted locked
       recur_count lock1_locked lock2_locked align_data uninterruptible
       heap oom corrupted trace blk_size blk_live
       spin_lock spin_unlock schedule kmalloc kfree memset store access
       checked_access object_size load_align_data store_align_data
       scheduling_while_atomic deadlock_splat corrupt_stack].

Ltac run_kernel_in H :=
  cbv [bind ret stop emit modify panic BUG loop_forever
       log log_all set_recur_count set_locked set_align_data
       set_uninterruptible set_heap set_corrupted locked
       recur_count lock1_locked lock2_locked align_data uninterruptible
       heap oom corrupted trace blk_size blk_live
       spin_lock spin_unlock schedule kmalloc kfree memset store access
       checked_access object_size load_align_data store_align_data
       scheduling_while_atomic deadlock_splat corrupt_stack] in H.

(** * Properties *)

(** ** Strings *)

Lemma strcmp_refl (s : string) : strcmp s s = 0.
Proof.
  induction s as [|c s IH]; cbn; [reflexivity|].
  now rewrite Ascii.eqb_refl.
Qed.

Lemma strcmp_zero (cs ct : string) : strcmp cs ct = 0 <-> cs = ct.
Proof.
  split; [|intros ->; apply strcmp_refl].
  revert ct. induction cs as [|c1 cs IH]; intros [|c2 ct]; cbn;
    try reflexivity; try discriminate.
  destruct (Ascii.eqb c1 c2) eqn:E.
  - apply Ascii.eqb_eq in E. intros H. f_equal; auto.
  - destruct (N_of_ascii c1 <? N_of_ascii c2)%N; discriminate.
Qed.

Lemma parse_ct_type_from_miss (what : string) (rest : list string) (i : Z) :
  ~ In what rest -> parse_ct_type_from i rest what = ctype_val CT_NONE.
Proof.
  revert i. induction rest as [|name rest IH]; intros i Hnot; cbn.
  - reflexivity.
  - destruct (strcmp what name =? 0) eqn:E.
    + apply Z.eqb_eq, strcmp_zero in E. exfalso. apply Hnot. now left.
    + apply IH. intros Hin. apply Hnot. now right.
Qed.

Lemma parse_ct_type_from_range (what : string) (rest : list string) (i : Z) :
  parse_ct_type_from i rest what = 0 \/
  i + 1 <= parse_ct_type_from i rest what <= i + Z.of_nat (length rest).
Proof.
  revert i. induction rest as [|name rest IH]; intros i; cbn [parse_ct_type_from].
  - now left.
  - destruct (strcmp what name =? 0).
    + right. cbn [length]. lia.
    + destruct (IH (i + 1)) as [H|H]; [now left|right]. cbn [length]. lia.
Qed.

Lemma string_app_cons (x : ascii) (a b : string) :
  String x a +:+ b = String x (a +:+ b).
Proof. reflexivity. Qed.

Lemma string_app_assoc (a b c : string) : (a +:+ b) +:+ c = a +:+ b +:+ c.
Proof.
  induction a as [|x a IH]; [reflexivity|].
  rewrite !string_app_cons. f_equal. exact IH.
Qed.

Lemma string_app_empty_r (a : string) : a +:+ EmptyString = a.
Proof.
  induction a as [|x a IH]; [reflexivity|].
  rewrite string_app_cons. f_equal. exact IH.
Qed.

Lemma procfs_read_from_unlines (rest : list string) (m : seq_file) :
  procfs_read_from rest m = m +:+ unlines rest.
Proof.
  revert m. induction rest as [|name rest IH]; intros m;
    cbn [procfs_read_from unlines foldr].
  - now rewrite string_app_empty_r.
  - rewrite IH. unfold seq_printf_line.
    rewrite !string_app_assoc. reflexivity.
Qed.

(** ** The monad *)

Lemma bind_returned {A B : Type} (m : M A) (k : A -> M B) (s s' : kstate) (a : A) :
  m s = Returned a s' -> bind m k s = k a s'.
Proof. unfold bind. now intros ->. Qed.


(** ** The write handler up to the call of the crash routine *)

Lemma copy_from_user_ok (to from : list ascii) (n : Z) :
  0 <= n <= Z.of_nat (length from) ->
  copy_from_user to from n =
  (take (Z.to_nat n) from ++ drop (Z.to_nat n) to, 0).
Proof.
  intros Hn. unfold copy_from_user.
  assert (Hlen : length (take (Z.to_nat n) from) = Z.to_nat n)
    by (rewrite length_take; lia).
  rewrite Hlen, Nat.sub_diag. cbn [replicate app]. f_equal. lia.
Qed.

Lemma procfs_write_with_request (crash : Z -> M unit)
  (ubuf : list ascii) (count : Z) :
  0 <= count <= 31 -> count <= Z.of_nat (length ubuf) ->
  procfs_write_with crash ubuf count =
  (crash (parse_ct_type (request ubuf count)) ;; ret count).
Proof.
  intros Hc Hl. unfold procfs_write_with, request.
  rewrite length_replicate.
  destruct (Z.gtb_spec count (Z.of_nat 32 - 1)); [lia|].
  rewrite copy_from_user_ok by lia. cbn [fst negb Z.eqb].
  destruct (strim _) as [buf off]. reflexivity.
Qed.

(** ** The claims *)

(** C1. Parsing inverts the catalog: the name at position [i] of [ct_type]
    is parsed to [i + 1], which is the value of the enumerator declared at
    that position after [CT_NONE] ([CT_PANIC] for the first name, up to
    [CT_DEADLOCK] for the last); the comparison that decides is exact, so
    only the name itself compares equal to it. *)
Theorem parse_ct_type_inverts_catalog (i : nat) (n : string) :
  ct_type !! i = Some n ->
  parse_ct_type n = Z.of_nat i + 1 /\
  ctype_of_val (parse_ct_type n) = ct_kinds !! i /\
  (forall what : string, strcmp what n = 0 <-> what = n).
Proof.
  intros Hi. split; [|split; [|intros what; apply strcmp_zero]];
    do 14 (destruct i as [|i]; [inversion Hi; subst n; vm_compute; reflexivity|]);
    inversion Hi.
Qed.

Lemma parse_ct_type_inverts_catalog_witness :
  ct_type !! 13%nat = Some "DEADLOCK" /\
  parse_ct_type "DEADLOCK" = 14 /\
  ctype_of_val (parse_ct_type "DEADLOCK") = Some CT_DEADLOCK.
Proof.
  split; [reflexivity|].
  destruct (parse_ct_type_inverts_catalog 13 "DEADLOCK" eq_refl) as (H1 & H2 & _).
  split; [exact H1|exact H2].
Defined.

Example parse_ct_type_all :
  map parse_ct_type ct_type = map ctype_val ct_kinds.
Proof. vm_compute. reflexivity. Qed.

Example parse_ct_type_case_sensitive :
  parse_ct_type "panic" = ctype_val CT_NONE /\
  parse_ct_type "Panic" = ctype_val CT_NONE /\
  parse_ct_type "PANIC" = ctype_val CT_PANIC.
Proof. vm_compute. auto. Qed.

(** C2. A write of more than 31 bytes returns [-E2BIG] and leaves the state
    as it was, whatever the crash routine is: the routine is not called. *)
Theorem procfs_write_too_big (crash : Z -> M unit) (cfg : arch)
  (ubuf : list ascii) (count : Z) (s : kstate) :
  31 < count ->
  procfs_write_with crash ubuf count s = Returned (- E2BIG) s /\
  procfs_write cfg ubuf count s = Returned (- E2BIG) s.
Proof.
  intros Hc. unfold procfs_write, procfs_write_with.
  rewrite length_replicate.
  destruct (Z.gtb_spec count (Z.of_nat 32 - 1)); [split; reflexivity|lia].
Qed.

Lemma procfs_write_too_big_witness :
  31 < 40 /\
  procfs_write_with (fun _ => panic "called") (replicate 40 "A"%char) 40 boot =
    Returned (-7) boot /\
  procfs_write x86_64 (replicate 40 "A"%char) 40 boot = Returned (-7) boot.
Proof.
  split; [lia|].
  apply (procfs_write_too_big (fun _ => panic "called") x86_64
           (replicate 40 "A"%char) 40 boot).
  lia.
Defined.

(** C4. [do_crash(CT_NONE)] returns, and the state it returns in is the
    state it was called in: no event is added to the trace and no static
    of the module, lock, heap block or task state is changed. *)
Theorem do_crash_none_is_noop (cfg : arch) (s : kstate) :
  do_crash cfg (ctype_val CT_NONE) s = Returned tt s /\
  returns (do_crash cfg (ctype_val CT_NONE) s) = true /\
  final_state (do_crash cfg (ctype_val CT_NONE) s) = s /\
  trace (final_state (do_crash cfg (ctype_val CT_NONE) s)) = trace s.
Proof.
  unfold do_crash. cbn [ctype_val ctype_of_val]. unfold ret.
  cbn [returns final_state]. repeat split.
Qed.

Lemma do_crash_default_is_noop (cfg : arch) (which : Z) (s : kstate) :
  ctype_of_val which = None -> do_crash cfg which s = Returned tt s.
Proof. unfold do_crash. now intros ->. Qed.

(** C3. A string that is none of the names of the catalog is parsed to
    [CT_NONE]; [do_crash] then does nothing, and a write that asks for such
    a string returns its length, as a write that was served does. *)
Theorem unknown_name_is_silent_noop (cfg : arch) (what : string) :
  ~ In what ct_type ->
  parse_ct_type what = ctype_val CT_NONE /\
  (forall s : kstate, do_crash cfg (parse_ct_type what) s = Returned tt s) /\
  (forall (ubuf : list ascii) (count : Z) (s : kstate),
      0 <= count <= 31 -> count <= Z.of_nat (length ubuf) ->
      request ubuf count = what ->
      procfs_write cfg ubuf count s = Returned count s).
Proof.
  intros Hnot.
  assert (Hp : parse_ct_type what = ctype_val CT_NONE)
    by (now apply parse_ct_type_from_miss).
  split; [exact Hp|]. split.
  - intros s. rewrite Hp. reflexivity.
  - intros ubuf count s Hc Hl Hr. unfold procfs_write.
    rewrite procfs_write_with_request by assumption.
    rewrite Hr, Hp. reflexivity.
Qed.

Lemma not_in_ct_type_dec (what : string) :
  forallb (fun n => negb (String.eqb what n)) ct_type = true -> ~ In what ct_type.
Proof.
  intros H Hin. rewrite forallb_forall in H. specialize (H what Hin).
  now rewrite String.eqb_refl in H.
Qed.

Lemma unknown_name_is_silent_noop_witness :
  parse_ct_type "BOGUS" = 0 /\
  do_crash x86_64 (parse_ct_type "BOGUS") boot = Returned tt boot /\
  procfs_write x86_64 (bytes "BOGUS") 5 boot = Returned 5 boot.
Proof.
  destruct (unknown_name_is_silent_noop x86_64 "BOGUS"
              (not_in_ct_type_dec "BOGUS" eq_refl)) as (H1 & H2 & H3).
  split; [exact H1|]. split; [apply H2|].
  apply H3; [lia|cbn; lia|reflexivity].
Defined.

Example parse_ct_type_empty : parse_ct_type "" = ctype_val CT_NONE.
Proof. reflexivity. Qed.

Example procfs_write_empty :
  procfs_write x86_64 [] 0 boot = Returned 0 boot.
Proof. reflexivity. Qed.

(** C6. [procfs_read] appends to the [seq_file] the 14 names of [ct_type],
    each followed by a line feed, in the order of the table, [PANIC] first
    and [DEADLOCK] last; no name contains a line feed, so each line is one
    name.  The text depends on nothing but the table, so every call prints
    the same. *)
Theorem procfs_read_lists_catalog (m : seq_file) :
  procfs_read m = (m +:+ unlines ct_type, 0) /\
  ct_type =
    [ "PANIC"; "BUG"; "EXCEPTION"; "LOOP"; "OVERFLOW"; "CORRUPT_STACK";
      "UNALIGNED_LOAD_STORE_WRITE"; "OVERWRITE_ALLOCATION";
      "WRITE_AFTER_FREE"; "SOFTLOCKUP"; "HARDLOCKUP"; "HUNG_TASK";
      "SCHEDULING_WHILE_ATOMIC"; "DEADLOCK" ] /\
  ARRAY_SIZE ct_type = 14 /\
  head ct_type = Some "PANIC" /\
  last ct_type = Some "DEADLOCK" /\
  forallb (fun n => negb (existsb (Ascii.eqb LF) (bytes n))) ct_type = true /\
  fst (procfs_read (fst (procfs_read m))) =
    m +:+ unlines ct_type +:+ unlines ct_type.
Proof.
  assert (H : forall m', procfs_read m' = (m' +:+ unlines ct_type, 0)).
  { intros m'. unfold procfs_read. now rewrite procfs_read_from_unlines. }
  split; [apply H|].
  do 5 (split; [reflexivity|]).
  rewrite !H. cbn [fst]. apply string_app_assoc.
Qed.

(** ** [recursive_loop] *)

Section RecursiveLoop.

Variable cfg : arch.

Lemma recursive_loop_frame_eq (room : Z) (s : kstate) :
  frame_size cfg <= room ->
  recursive_loop_frame cfg room s =
  Returned (wrap_int (recur_count s - 1) =? 0)
    (set_recur_count (wrap_int (recur_count s - 1)) (log (frame_fill cfg) s)).
Proof.
  intros Hroom.
  unfold recursive_loop_frame, enter_frame, bind, memset, access,
    checked_access, modify.
  destruct (Z.ltb_spec room (frame_size cfg)); [lia|].
  cbn [object_size].
  replace ((0 <=? 0) && (0 + BUFSIZE cfg <=? BUFSIZE cfg)) with true;
    [reflexivity|].
  symmetry. apply andb_true_iff. split; apply Z.leb_le; lia.
Qed.

Lemma recursive_loop_frame_overflow (room : Z) (s : kstate) :
  room < frame_size cfg ->
  recursive_loop_frame cfg room s = Halted StackOverflow s.
Proof.
  intros Hroom. unfold recursive_loop_frame, enter_frame, bind.
  destruct (Z.ltb_spec room (frame_size cfg)); [reflexivity|lia].
Qed.

(** The equation of the source, with the stack: a frame that does not fit
    faults; one that fits returns 0 when the counter has reached zero, and
    calls itself otherwise. *)
Lemma recursive_loop_step (room a : Z) (s : kstate) :
  recursive_loop cfg room a s =
  if room <? frame_size cfg then Halted StackOverflow s
  else
    let s1 :=
      set_recur_count (wrap_int (recur_count s - 1)) (log (frame_fill cfg) s)
    in
    if recur_count s1 =? 0 then Returned 0 s1
    else recursive_loop cfg (room - frame_size cfg) a s1.
Proof.
  funelim (recursive_loop cfg room a s);
    match goal with
    | E : recursive_loop_frame _ _ _ = _ |- _ => pose proof E as E'
    end;
    destruct (Z.ltb_spec room (frame_size cfg)) as [Hlt|Hge];
    try (rewrite recursive_loop_frame_overflow in E' by exact Hlt);
    try (rewrite recursive_loop_frame_eq in E' by exact Hge);
    try discriminate E';
    inversion E' as [[Hzero Hs']]; try reflexivity;
    cbn [recur_count set_recur_count log]; rewrite Hzero; reflexivity.
Qed.

Lemma wrap_int_zero (c : Z) :
  (c - 1) mod 2 ^ 32 = 0 -> wrap_int (c - 1) = 0.
Proof. intros H. wrap_arith. Qed.

Lemma wrap_int_pred (c : Z) (n : Z) :
  0 <= n -> (c - 1) mod 2 ^ 32 = n + 1 ->
  wrap_int (c - 1) <> 0 /\ (wrap_int (c - 1) - 1) mod 2 ^ 32 = n.
Proof. intros Hn H. wrap_arith. Qed.

Lemma after_frames_snoc (n : nat) (s : kstate) :
  set_recur_count 0
    (log_all (repeat (frame_fill cfg) (S n))
       (set_recur_count (wrap_int (recur_count s - 1))
          (log (frame_fill cfg) s))) =
  set_recur_count 0 (log_all (repeat (frame_fill cfg) (S (S n))) s).
Proof.
  destruct s; unfold set_recur_count, log_all, log;
    cbn [recur_count lock1_locked lock2_locked align_data uninterruptible
         heap oom corrupted trace].
  f_equal. rewrite <- app_assoc. reflexivity.
Qed.



(** A call that returns has run down the counter. *)
Lemma recursive_loop_returned (a : Z) (n : nat) :
  forall (room : Z) (s s' : kstate) (v : Z),
    (recur_count s - 1) mod 2 ^ 32 = Z.of_nat n ->
    recursive_loop cfg room a s = Returned v s' ->
    v = 0 /\
    s' = set_recur_count 0 (log_all (repeat (frame_fill cfg) (S n)) s).
Proof.
  induction n as [|n IH]; intros room s s' v Hc H;
    rewrite recursive_loop_step in H;
    destruct (room <? frame_size cfg); try discriminate H;
    cbv zeta in H; cbn [recur_count set_recur_count log] in H.
  - rewrite (wrap_int_zero _ Hc) in H. cbn [Z.eqb] in H.
    inversion H. split; [reflexivity|]. destruct s; reflexivity.
  - destruct (wrap_int_pred (recur_count s) (Z.of_nat n)) as [Hnz Hm];
      [lia|lia|].
    apply Z.eqb_neq in Hnz. rewrite Hnz in H.
    apply IH in H; [|exact Hm]. destruct H as [Hv Hs'].
    split; [exact Hv|]. rewrite Hs'. apply after_frames_snoc.
Qed.

Lemma recursive_loop_returned_any (room a : Z) (s s' : kstate) (v : Z) :
  recursive_loop cfg room a s = Returned v s' ->
  v = 0 /\
  exists n : nat,
    s' = set_recur_count 0 (log_all (repeat (frame_fill cfg) (S n)) s).
Proof.
  intros H.
  destruct (recursive_loop_returned a
              (Z.to_nat ((recur_count s - 1) mod 2 ^ 32)) room s s' v)
    as [Hv Hs']; [|exact H|].
  - rewrite Z2Nat.id; [reflexivity|]. apply Z.mod_pos_bound. reflexivity.
  - split; [exact Hv|]. eexists. exact Hs'.
Qed.




End RecursiveLoop.








(** ** [deadlock_splat] *)

Lemma deadlock_splat_free (s : kstate) :
  lock1_locked s = false -> lock2_locked s = false ->
  deadlock_splat s =
  Returned tt
    (log_all
       [ EvSpinLock lock1; EvSpinLock lock2;
         EvSpinUnlock lock2; EvSpinUnlock lock1;
         EvSpinLock lock2; EvSpinLock lock1;
         EvSpinUnlock lock1; EvSpinUnlock lock2 ] s).
Proof.
  intros H1 H2.
  destruct s as [rc l1 l2 ad un hp om co tr]. cbn in H1, H2. subst l1 l2.
  unfold deadlock_splat, bind, spin_lock, spin_unlock, locked, set_locked,
    log, log_all.
  cbn [recur_count lock1_locked lock2_locked align_data uninterruptible heap
       oom corrupted trace].
  do 2 f_equal. rewrite <- !app_assoc. reflexivity.
Qed.

(** C8. Called with both locks free, [deadlock_splat] takes [lock1] then
    [lock2] and releases them in reverse, takes [lock2] then [lock1] and
    releases them in reverse, and returns; the state it leaves differs from
    the one it found by these eight events only, and both locks are free
    again.  [do_crash(CT_DEADLOCK)] is this call. *)
Theorem deadlock_splat_sequence (cfg : arch) (s : kstate) :
  lock1_locked s = false -> lock2_locked s = false ->
  exists s' : kstate,
    deadlock_splat s = Returned tt s' /\
    do_crash cfg (ctype_val CT_DEADLOCK) s = Returned tt s' /\
    s' =
      log_all
        [ EvSpinLock lock1; EvSpinLock lock2;
          EvSpinUnlock lock2; EvSpinUnlock lock1;
          EvSpinLock lock2; EvSpinLock lock1;
          EvSpinUnlock lock1; EvSpinUnlock lock2 ] s /\
    lock1_locked s' = false /\ lock2_locked s' = false.
Proof.
  intros H1 H2. eexists.
  split; [apply deadlock_splat_free; assumption|].
  split; [apply deadlock_splat_free; assumption|].
  split; [reflexivity|]. split; assumption.
Qed.

Lemma deadlock_splat_sequence_witness :
  exists s' : kstate,
    deadlock_splat boot = Returned tt s' /\
    trace s' =
      [ EvSpinLock lock1; EvSpinLock lock2;
        EvSpinUnlock lock2; EvSpinUnlock lock1;
        EvSpinLock lock2; EvSpinLock lock1;
        EvSpinUnlock lock1; EvSpinUnlock lock2 ].
Proof.
  destruct (deadlock_splat_sequence x86_64 boot eq_refl eq_refl)
    as (s' & Hrun & _ & Hs' & _).
  exists s'. split; [exact Hrun|]. rewrite Hs'. reflexivity.
Defined.

(** With a lock held by somebody else the call does not come back. *)
Lemma deadlock_splat_blocks (s : kstate) :
  lock1_locked s = true \/ lock2_locked s = true ->
  returns (deadlock_splat s) = false.
Proof.
  destruct s as [rc l1 l2 ad un hp om co tr]. cbn.
  intros [->| ->]; [reflexivity|]. destruct l1; reflexivity.
Qed.

(** ** [CT_OVERWRITE_ALLOCATION] *)

(** C9. With an [unsigned long] of 4 or 8 bytes and an allocator that
    serves the request, the routine gets a block of 1020 bytes, stores one
    [unsigned long] at element [1024 / sizeof(unsigned long)], which is
    byte offset 1024, past the 1020 bytes of the block, so that the
    guarded form of the access fails, and then frees the block. *)
Theorem overwrite_allocation_out_of_bounds (cfg : arch) (s : kstate) :
  sizeof_unsigned_long cfg = 4 \/ sizeof_unsigned_long cfg = 8 ->
  oom s = false ->
  exists s1 s' : kstate,
    kmalloc 1020 s = Returned (PHeap (length (heap s))) s1 /\
    object_size s1 (PHeap (length (heap s))) = Some 1020 /\
    (1024 ÷ sizeof_unsigned_long cfg) * sizeof_unsigned_long cfg = 1024 /\
    (forall size : Z,
        object_size s1 (PHeap (length (heap s))) = Some size -> size < 1024) /\
    checked_access s1 (PHeap (length (heap s))) 1024
      (sizeof_unsigned_long cfg) = None /\
    do_crash cfg (ctype_val CT_OVERWRITE_ALLOCATION) s = Returned tt s' /\
    trace s' =
      trace s ++
      [ EvKmalloc 1020 (PHeap (length (heap s)));
        EvStore (PHeap (length (heap s))) 1024 (sizeof_unsigned_long cfg)
          0x12345678;
        EvKfree (PHeap (length (heap s))) ] /\
    corrupted s' = true /\
    heap s' = heap s ++ [{| blk_size := 1020; blk_live := false |}].
Proof.
  intros Hw Hoom.
  destruct s as [rc l1 l2 ad un hp om co tr]. cbn in Hoom. subst om.
  assert (Hlook : forall b : block, (hp ++ [b]) !! length hp = Some b)
    by (intros b; now apply list_lookup_middle).
  assert (Hoff : (1024 ÷ sizeof_unsigned_long cfg) * sizeof_unsigned_long cfg
                 = 1024) by (destruct Hw as [-> | ->]; reflexivity).
  eexists. eexists.
  split; [reflexivity|].
  split; [cbn; now rewrite Hlook|].
  split; [exact Hoff|].
  split; [cbn; rewrite Hlook; cbn; intros size [= <-]; lia|].
  split.
  { unfold checked_access. cbn. rewrite Hlook. cbn.
    destruct Hw as [-> | ->]; reflexivity. }
  unfold do_crash. cbn [ctype_val ctype_of_val]. cbv zeta.
  rewrite Hoff.
  unfold bind, kmalloc, store, access, checked_access, kfree, object_size.
  cbn [oom heap log set_heap set_corrupted]. rewrite Hlook.
  cbn [blk_live blk_size].
  replace ((0 <=? 1024) && (1024 + sizeof_unsigned_long cfg <=? 1020))
    with false by (destruct Hw as [-> | ->]; reflexivity).
  cbn [oom heap log set_heap set_corrupted]. rewrite Hlook.
  split; [reflexivity|].
  cbn [trace corrupted heap log set_heap set_corrupted blk_size].
  split; [now rewrite <- !app_assoc|].
  split; [reflexivity|].
  rewrite insert_app_r_alt by lia. now rewrite Nat.sub_diag.
Qed.

Lemma overwrite_allocation_out_of_bounds_witness :
  exists s' : kstate,
    do_crash x86_64 (ctype_val CT_OVERWRITE_ALLOCATION) boot = Returned tt s' /\
    trace s' =
      [ EvKmalloc 1020 (PHeap 0); EvStore (PHeap 0) 1024 8 0x12345678;
        EvKfree (PHeap 0) ] /\
    corrupted s' = true.
Proof.
  destruct (overwrite_allocation_out_of_bounds x86_64 boot
              (or_intror eq_refl) eq_refl)
    as (s1 & s' & _ & _ & _ & _ & _ & Hrun & Htr & Hco & _).
  exists s'. split; [exact Hrun|]. split; [exact Htr|exact Hco].
Defined.

(** Without memory the store goes through the null pointer and traps. *)
Lemma overwrite_allocation_oom (cfg : arch) (s : kstate) :
  sizeof_unsigned_long cfg = 4 \/ sizeof_unsigned_long cfg = 8 ->
  oom s = true ->
  do_crash cfg (ctype_val CT_OVERWRITE_ALLOCATION) s =
  Halted (Oops 1024) (log (EvKmalloc 1020 NULL) s).
Proof.
  intros Hw Hoom. unfold do_crash. cbn [ctype_val ctype_of_val]. cbv zeta.
  unfold bind, kmalloc. rewrite Hoom. unfold store, access.
  destruct Hw as [-> | ->]; reflexivity.
Qed.

(** ** What [strim] does to the buffer of [procfs_write] *)

Lemma isspace_not_NUL (c : ascii) : isspace c = true -> c <> NUL.
Proof. intros H ->. discriminate H. Qed.

Lemma cstr_app_NUL (l rest : list ascii) :
  Forall (fun x => x <> NUL) l ->
  cstr (l ++ NUL :: rest) = string_of_list_ascii l.
Proof.
  induction 1 as [|x l Hx _ IH]; cbn [app cstr string_of_list_ascii].
  - reflexivity.
  - apply Ascii.eqb_neq in Hx. rewrite Hx. now rewrite IH.
Qed.

Lemma length_string_of_list_ascii (l : list ascii) :
  String.length (string_of_list_ascii l) = length l.
Proof. induction l as [|x l IH]; cbn; [reflexivity|now rewrite IH]. Qed.

Lemma length_bytes (s : string) : length (bytes s) = String.length s.
Proof.
  unfold bytes. induction s as [|x s IH];
    cbn [list_ascii_of_string length String.length]; [reflexivity|].
  f_equal. exact IH.
Qed.

Lemma strim_end_spaces (pre w : list ascii) :
  Forall (fun x => isspace x = true) w ->
  forall rest : list ascii,
    strim_end (pre ++ w ++ rest) (length pre + length w) =
    strim_end (pre ++ w ++ rest) (length pre).
Proof.
  induction w as [|c w IH] using rev_ind; intros Hw rest.
  - now rewrite Nat.add_0_r.
  - apply Forall_app in Hw as [Hw Hc]. apply Forall_inv in Hc. cbv beta in Hc.
    rewrite length_app. cbn [length].
    replace (length pre + (length w + 1))%nat
      with (S (length pre + length w)) by lia.
    cbn [strim_end].
    replace (pre ++ (w ++ [c]) ++ rest) with ((pre ++ w) ++ c :: rest)
      by (now rewrite <- !app_assoc).
    rewrite list_lookup_middle by (rewrite length_app; lia).
    rewrite Hc. rewrite <- app_assoc. apply IH. exact Hw.
Qed.

Lemma strim_end_stops (pre : list ascii) (c : ascii) (rest : list ascii) :
  isspace c = false ->
  strim_end (pre ++ c :: rest) (S (length pre)) = S (length pre).
Proof.
  intros Hc. cbn [strim_end].
  rewrite list_lookup_middle by reflexivity. now rewrite Hc.
Qed.

(** A string without NUL that ends in a byte that is not white space,
    followed by white space and a NUL: [strim] leaves the string. *)
Lemma strim_trailing (pre : list ascii) (c : ascii) (w rest : list ascii) :
  Forall (fun x => x <> NUL) (pre ++ [c]) ->
  isspace c = false ->
  Forall (fun x => isspace x = true) w ->
  cstr (fst (strim ((pre ++ [c]) ++ w ++ NUL :: rest))) =
  string_of_list_ascii (pre ++ [c]).
Proof.
  intros Hl Hc Hw. unfold strim, strlen.
  assert (HwN : Forall (fun x => x <> NUL) w)
    by (eapply Forall_impl; [exact Hw|exact isspace_not_NUL]).
  assert (Hlen : String.length (cstr ((pre ++ [c]) ++ w ++ NUL :: rest)) =
                 (length (pre ++ [c]) + length w)%nat).
  { rewrite app_assoc, cstr_app_NUL by (apply Forall_app; split; assumption).
    now rewrite length_string_of_list_ascii, length_app. }
  rewrite Hlen.
  destruct (Nat.eqb_spec (length (pre ++ [c]) + length w) 0) as [E|_].
  { rewrite length_app in E. cbn in E. lia. }
  cbn [fst].
  rewrite strim_end_spaces by exact Hw.
  rewrite <- (app_assoc pre [c]). cbn [app].
  rewrite length_app. cbn [length].
  replace (length pre + 1)%nat with (S (length pre)) by lia.
  rewrite strim_end_stops by exact Hc.
  replace (pre ++ c :: w ++ NUL :: rest) with ((pre ++ [c]) ++ w ++ NUL :: rest)
    by (now rewrite <- app_assoc).
  rewrite insert_app_r_alt by (rewrite length_app; cbn; lia).
  replace (S (length pre) - length (pre ++ [c]))%nat with O
    by (rewrite length_app; cbn; lia).
  destruct w as [|x w]; cbn [app]; apply cstr_app_NUL; exact Hl.
Qed.

(** The bytes [request] works on when the whole payload is written. *)
Lemma request_whole (payload : list ascii) :
  (length payload <= 31)%nat ->
  request payload (Z.of_nat (length payload)) =
  cstr (fst (strim (payload ++ NUL :: replicate (31 - length payload) NUL))).
Proof.
  intros Hlen. unfold request.
  rewrite copy_from_user_ok by lia. cbn [fst].
  rewrite Nat2Z.id, firstn_all, drop_replicate.
  replace (32 - length payload)%nat with (S (31 - length payload)) by lia.
  cbn [replicate].
  rewrite insert_app_r_alt by lia. rewrite Nat.sub_diag. reflexivity.
Qed.

Lemma request_trailing_space (n : string) (w : list ascii) :
  trim_stable n = true ->
  Forall (fun x => isspace x = true) w ->
  (String.length n + length w <= 31)%nat ->
  request (bytes n ++ w) (Z.of_nat (String.length n + length w)) = n.
Proof.
  intros Hn Hw Hlen. unfold trim_stable in Hn.
  apply andb_true_iff in Hn as [Hlast Hnul].
  destruct (rev (bytes n)) as [|c pre'] eqn:Hrev; [discriminate|].
  apply negb_true_iff in Hlast.
  assert (Hb : bytes n = rev pre' ++ [c]).
  { rewrite <- (rev_involutive (bytes n)), Hrev. reflexivity. }
  assert (HN : Forall (fun x => x <> NUL) (bytes n)).
  { apply Forall_forall. intros x Hx. rewrite forallb_forall in Hnul.
    apply list_elem_of_In in Hx.
    specialize (Hnul x Hx). apply negb_true_iff, Ascii.eqb_neq in Hnul.
    exact Hnul. }
  rewrite <- length_bytes, <- length_app.
  rewrite request_whole by (rewrite length_app, length_bytes; lia).
  rewrite <- app_assoc, Hb.
  rewrite strim_trailing; [|rewrite <- Hb; exact HN|exact Hlast|exact Hw].
  rewrite <- Hb. apply string_of_list_ascii_of_string.
Qed.

Lemma ct_type_trim_stable (n : string) : In n ct_type -> trim_stable n = true.
Proof.
  assert (H : forallb trim_stable ct_type = true) by (vm_compute; reflexivity).
  rewrite forallb_forall in H. apply H.
Qed.

(** ** Trimming in [procfs_write] *)

(** C5, as the code has it.  [parse_ct_type] compares its argument as it
    is; it is [procfs_write] that prepares the argument, with [strim], whose
    result, the pointer past the leading white space, it does not use.  So
    white space at the end of the payload is dropped, all of it, and white
    space at the start is kept: a write of a name of the catalog followed
    by white space, a line feed for one, runs what a write of the name
    alone runs, the routine that [parse_ct_type] gives for the name. *)
Theorem procfs_write_trims_trailing_space
  (cfg : arch) (n : string) (w : list ascii) (s : kstate) :
  In n ct_type ->
  Forall (fun x => isspace x = true) w ->
  (String.length n + length w <= 31)%nat ->
  request (bytes n ++ w) (Z.of_nat (String.length n + length w)) = n /\
  procfs_write cfg (bytes n ++ w) (Z.of_nat (String.length n + length w)) s =
    (do_crash cfg (parse_ct_type n) ;;
     ret (Z.of_nat (String.length n + length w))) s /\
  procfs_write cfg (bytes n) (Z.of_nat (String.length n)) s =
    (do_crash cfg (parse_ct_type n) ;; ret (Z.of_nat (String.length n))) s.
Proof.
  intros Hn Hw Hlen. apply ct_type_trim_stable in Hn.
  pose proof (request_trailing_space n w Hn Hw Hlen) as Hr.
  assert (Hr0 : request (bytes n) (Z.of_nat (String.length n)) = n).
  { pose proof (request_trailing_space n [] Hn (List.Forall_nil _)) as H0.
    rewrite app_nil_r in H0. cbn [length] in H0.
    rewrite Nat.add_0_r in H0. apply H0. lia. }
  split; [exact Hr|]. unfold procfs_write. split.
  - rewrite procfs_write_with_request
      by (rewrite ?length_app, ?length_bytes; lia).
    now rewrite Hr.
  - rewrite procfs_write_with_request by (rewrite ?length_bytes; lia).
    now rewrite Hr0.
Qed.

Lemma procfs_write_trims_trailing_space_witness :
  procfs_write x86_64 (bytes "DEADLOCK" ++ [LF]) 9 boot =
    (do_crash x86_64 (parse_ct_type "DEADLOCK") ;; ret 9) boot /\
  procfs_write x86_64 (bytes "DEADLOCK") 8 boot =
    (do_crash x86_64 (parse_ct_type "DEADLOCK") ;; ret 8) boot.
Proof.
  assert (Hin : In "DEADLOCK" ct_type) by (cbn; tauto).
  assert (Hw : Forall (fun x => isspace x = true) [LF])
    by (constructor; [reflexivity|constructor]).
  assert (Hlen : (String.length "DEADLOCK" + length [LF] <= 31)%nat)
    by (cbn; lia).
  destruct (procfs_write_trims_trailing_space x86_64 "DEADLOCK" [LF] boot
              Hin Hw Hlen) as (_ & H1 & H2).
  split; [exact H1|exact H2].
Defined.

(** Counterexample to C5 as stated, white space at the start: it reaches
    [parse_ct_type], which then finds no name, so the write is served as a
    request for nothing, while the same write without the space panics. *)
Lemma procfs_write_keeps_leading_space :
  isspace " " = true /\
  request (bytes " PANIC") 6 = " PANIC" /\
  parse_ct_type (request (bytes " PANIC") 6) = ctype_val CT_NONE /\
  parse_ct_type (request (bytes "PANIC") 5) = ctype_val CT_PANIC /\
  procfs_write x86_64 (bytes " PANIC") 6 boot = Returned 6 boot /\
  procfs_write x86_64 (bytes "PANIC") 5 boot =
    Halted (Panic "have a nice day... ;-)") boot.
Proof. vm_compute. repeat split; reflexivity. Qed.

Example parse_ct_type_does_not_trim :
  parse_ct_type ("PANIC" +:+ String LF EmptyString) = ctype_val CT_NONE /\
  parse_ct_type " PANIC" = ctype_val CT_NONE.
Proof. vm_compute. split; reflexivity. Qed.

Example strim_result_skips_leading_space :
  strim (bytes "  BUG" ++ [LF; NUL]) = (bytes "  BUG" ++ [NUL; NUL], 2%nat).
Proof. reflexivity. Qed.

(** ** The result of [procfs_write] *)


(** C10. Whatever is written, a write that returns returns [-E2BIG],
    [-EFAULT] or the number of bytes written.  When at most 31 bytes are
    written, all of them readable, and the routine selected returns, the
    result is the number of bytes written, and the state is the one the
    routine left.  The routine returns when nothing is selected
    ([CT_NONE], which is what a string outside the catalog is parsed to)
    and when [CT_DEADLOCK] is selected with both locks free. *)
Theorem procfs_write_result
  (cfg : arch) (ubuf : list ascii) (count : Z) (s : kstate) :
  (forall (r : Z) (s' : kstate),
      procfs_write cfg ubuf count s = Returned r s' ->
      r = - E2BIG \/ r = - EFAULT \/ r = count) /\
  (0 <= count <= 31 -> count <= Z.of_nat (length ubuf) ->
   forall s' : kstate,
     do_crash cfg (parse_ct_type (request ubuf count)) s = Returned tt s' ->
     procfs_write cfg ubuf count s = Returned count s') /\
  (0 <= count <= 31 -> count <= Z.of_nat (length ubuf) ->
   parse_ct_type (request ubuf count) = ctype_val CT_NONE \/
   ~ In (request ubuf count) ct_type ->
   procfs_write cfg ubuf count s = Returned count s) /\
  (0 <= count <= 31 -> count <= Z.of_nat (length ubuf) ->
   parse_ct_type (request ubuf count) = ctype_val CT_DEADLOCK ->
   lock1_locked s = false -> lock2_locked s = false ->
   procfs_write cfg ubuf count s =
   Returned count
     (log_all
        [ EvSpinLock lock1; EvSpinLock lock2;
          EvSpinUnlock lock2; EvSpinUnlock lock1;
          EvSpinLock lock2; EvSpinLock lock1;
          EvSpinUnlock lock1; EvSpinUnlock lock2 ] s)).
Proof.
  assert (Hret : 0 <= count <= 31 -> count <= Z.of_nat (length ubuf) ->
    forall s' : kstate,
      do_crash cfg (parse_ct_type (request ubuf count)) s = Returned tt s' ->
      procfs_write cfg ubuf count s = Returned count s').
  { intros Hc Hl s' Hrun. unfold procfs_write.
    rewrite procfs_write_with_request by assumption.
    now rewrite (bind_returned _ _ _ _ _ Hrun). }
  split; [|split; [exact Hret|split]].
  - clear Hret. intros r s'. unfold procfs_write, procfs_write_with, ret.
    destruct (count >? _).
    { intros H. inversion H. left. reflexivity. }
    destruct (copy_from_user _ _ _) as [buf uncopied].
    destruct (negb (uncopied =? 0)).
    { intros H. inversion H. right. left. reflexivity. }
    destruct (strim _) as [buf' off]. unfold bind.
    destruct (do_crash cfg _ s) as [[] s1|h s1]; intros H; inversion H.
    right. right. reflexivity.
  - intros Hc Hl Hnone. apply Hret; [assumption..|].
    destruct Hnone as [-> |Hnot]; [reflexivity|].
    unfold parse_ct_type.
    now rewrite (parse_ct_type_from_miss _ ct_type 0 Hnot).
  - intros Hc Hl Hk H1 H2. apply Hret; [assumption..|]. rewrite Hk.
    apply (deadlock_splat_free s H1 H2).
Qed.

Lemma procfs_write_result_witness :
  procfs_write x86_64 (bytes "DEADLOCK" ++ [LF]) 9 boot =
  Returned 9
    (log_all
       [ EvSpinLock lock1; EvSpinLock lock2;
         EvSpinUnlock lock2; EvSpinUnlock lock1;
         EvSpinLock lock2; EvSpinLock lock1;
         EvSpinUnlock lock1; EvSpinUnlock lock2 ] boot) /\
  procfs_write x86_64 (bytes "nothing") 7 boot = Returned 7 boot.
Proof.
  split.
  - destruct (procfs_write_result x86_64 (bytes "DEADLOCK" ++ [LF]) 9 boot)
      as (_ & _ & _ & H).
    apply H; [lia|cbn; lia|reflexivity|reflexivity|reflexivity].
  - destruct (procfs_write_result x86_64 (bytes "nothing") 7 boot)
      as (_ & _ & H & _).
    apply H; [lia|cbn; lia|left; reflexivity].
Defined.

(** * Further properties of the code *)

(** ** [parse_ct_type], both ways *)

Lemma parse_ct_type_from_hit (what : string) (rest : list string) (i v : Z) :
  0 <= i -> parse_ct_type_from i rest what = v -> v <> 0 ->
  i + 1 <= v /\ rest !! Z.to_nat (v - i - 1) = Some what.
Proof.
  revert i. induction rest as [|name rest IH]; intros i Hi Hv Hnz;
    cbn [parse_ct_type_from] in Hv.
  - cbn in Hv. congruence.
  - destruct (strcmp what name =? 0) eqn:E.
    + apply Z.eqb_eq, strcmp_zero in E. subst v name.
      split; [lia|]. now replace (i + 1 - i - 1) with 0 by lia.
    + destruct (IH (i + 1) ltac:(lia) Hv Hnz) as [Hge Hlook].
      split; [lia|].
      replace (Z.to_nat (v - i - 1)) with (S (Z.to_nat (v - (i + 1) - 1)))
        by lia.
      exact Hlook.
Qed.

Lemma parse_ct_type_from_found (what : string) (rest : list string) (i : Z) :
  0 <= i -> In what rest -> parse_ct_type_from i rest what <> 0.
Proof.
  revert i. induction rest as [|name rest IH]; intros i Hi Hin;
    cbn [parse_ct_type_from]; [destruct Hin|].
  destruct (strcmp what name =? 0) eqn:E; [lia|].
  destruct Hin as [->|Hin]; [|apply IH; [lia|exact Hin]].
  rewrite strcmp_refl in E. discriminate E.
Qed.

(** X1. [parse_ct_type] returns a value from 0 to 14; it returns a value
    other than [CT_NONE] exactly for the strings of the catalog, and two
    strings parsed to the same such value are the same string. *)
Theorem parse_ct_type_recognises (what other : string) :
  0 <= parse_ct_type what <= 14 /\
  (parse_ct_type what <> ctype_val CT_NONE <-> In what ct_type) /\
  (parse_ct_type what = parse_ct_type other ->
   parse_ct_type what <> ctype_val CT_NONE -> what = other).
Proof.
  split; [|split].
  - destruct (parse_ct_type_from_range what ct_type 0) as [H|H];
      unfold parse_ct_type.
    + rewrite H. lia.
    + change (Z.of_nat (length ct_type)) with 14 in H. lia.
  - split.
    + intros Hnz. destruct (In_dec string_dec what ct_type) as [Hin|Hnot];
        [exact Hin|].
      exfalso. apply Hnz. now apply parse_ct_type_from_miss.
    + intros Hin. now apply parse_ct_type_from_found.
  - intros Heq Hnz. change (ctype_val CT_NONE) with 0 in Hnz.
    destruct (parse_ct_type_from_hit what ct_type 0 _ ltac:(lia) eq_refl Hnz)
      as [_ H1].
    assert (Hnz' : parse_ct_type other <> 0) by (now rewrite <- Heq).
    destruct (parse_ct_type_from_hit other ct_type 0 _ ltac:(lia) eq_refl Hnz')
      as [_ H2].
    unfold parse_ct_type in Heq. rewrite <- Heq in H2. congruence.
Qed.

(** X2. The value [parse_ct_type] returns for a string is, when it is not
    [CT_NONE], one more than the index at which the table holds that very
    string. *)
Theorem parse_ct_type_index (what : string) (v : Z) :
  parse_ct_type what = v -> v <> ctype_val CT_NONE ->
  1 <= v <= ARRAY_SIZE ct_type /\ ct_type !! Z.to_nat (v - 1) = Some what.
Proof.
  intros Hv Hnz. change (ctype_val CT_NONE) with 0 in Hnz.
  destruct (parse_ct_type_from_hit what ct_type 0 v ltac:(lia) Hv Hnz)
    as [Hge Hlook].
  replace (v - 0 - 1) with (v - 1) in Hlook by lia.
  split; [|exact Hlook].
  apply lookup_lt_Some in Hlook. unfold ARRAY_SIZE. lia.
Qed.

Lemma parse_ct_type_index_witness :
  parse_ct_type "LOOP" = 4 /\ ct_type !! 3%nat = Some "LOOP".
Proof.
  split; [reflexivity|].
  apply (parse_ct_type_index "LOOP" 4); [reflexivity|discriminate].
Defined.

(** ** The errors of [procfs_write] *)

Lemma copy_from_user_short (to from : list ascii) (n : Z) :
  Z.of_nat (length from) < n ->
  snd (copy_from_user to from n) = n - Z.of_nat (length from).
Proof.
  intros Hn. unfold copy_from_user. cbn [snd].
  rewrite length_take. lia.
Qed.

Lemma procfs_write_with_fault (crash : Z -> M unit)
  (ubuf : list ascii) (count : Z) (s : kstate) :
  count <= 31 -> Z.of_nat (length ubuf) < count ->
  procfs_write_with crash ubuf count s = Returned (- EFAULT) s.
Proof.
  intros Hc Hl. unfold procfs_write_with. rewrite length_replicate.
  destruct (Z.gtb_spec count (Z.of_nat 32 - 1)); [lia|].
  pose proof (copy_from_user_short (replicate 32 NUL) ubuf count Hl) as Hs.
  destruct (copy_from_user _ _ _) as [buf uncopied]. cbn [snd] in Hs.
  destruct (Z.eqb_spec uncopied 0); [lia|]. reflexivity.
Qed.

(** X3. A write of at most 31 bytes of which not all can be read returns
    [-EFAULT] and leaves the state as it was, whatever the crash routine
    is: the routine is not called. *)
Theorem procfs_write_unreadable (crash : Z -> M unit) (cfg : arch)
  (ubuf : list ascii) (count : Z) (s : kstate) :
  count <= 31 -> Z.of_nat (length ubuf) < count ->
  procfs_write_with crash ubuf count s = Returned (- EFAULT) s /\
  procfs_write cfg ubuf count s = Returned (- EFAULT) s.
Proof.
  intros Hc Hl. split; [|unfold procfs_write];
    now apply procfs_write_with_fault.
Qed.

Lemma procfs_write_unreadable_witness :
  procfs_write_with (fun _ => panic "called") (bytes "PANI") 5 boot =
    Returned (-14) boot /\
  procfs_write x86_64 (bytes "PANI") 5 boot = Returned (-14) boot.
Proof.
  apply (procfs_write_unreadable (fun _ => panic "called") x86_64
           (bytes "PANI") 5 boot); [lia|cbn; lia].
Defined.

(** X4. For a byte count that a [size_t] can hold, the result of a write
    that returns tells what happened: it is [-E2BIG] exactly when more
    than 31 bytes were written, [-EFAULT] exactly when at most 31 were
    written and not all could be read, and the byte count otherwise; an
    error is never taken for a count. *)
Theorem procfs_write_result_decodes (cfg : arch)
  (ubuf : list ascii) (count r : Z) (s s' : kstate) :
  0 <= count ->
  procfs_write cfg ubuf count s = Returned r s' ->
  (r = - E2BIG <-> 31 < count) /\
  (r = - EFAULT <-> count <= 31 /\ Z.of_nat (length ubuf) < count) /\
  (r = count <-> count <= 31 /\ count <= Z.of_nat (length ubuf)).
Proof.
  intros Hc Hrun. unfold E2BIG, EFAULT.
  destruct (Z.lt_ge_cases 31 count) as [Hbig|Hfit].
  { assert (E : procfs_write cfg ubuf count s = Returned (- E2BIG) s).
    { unfold procfs_write, procfs_write_with. rewrite length_replicate.
      destruct (Z.gtb_spec count (Z.of_nat 32 - 1)); [reflexivity|lia]. }
    rewrite E in Hrun. inversion Hrun. unfold E2BIG. lia. }
  destruct (Z.lt_ge_cases (Z.of_nat (length ubuf)) count) as [Hshort|Hok].
  { unfold procfs_write in Hrun.
    rewrite procfs_write_with_fault in Hrun by assumption.
    inversion Hrun. unfold EFAULT. lia. }
  unfold procfs_write in Hrun.
  rewrite procfs_write_with_request in Hrun by lia.
  unfold bind, ret in Hrun.
  destruct (do_crash cfg _ s) as [[] s1|h s1]; inversion Hrun. lia.
Qed.

Lemma procfs_write_result_decodes_witness :
  (5 = - E2BIG <-> 31 < 5) /\
  (5 = 5 <-> 5 <= 31 /\ 5 <= Z.of_nat (length (bytes "BOGUS"))).
Proof.
  assert (Hrun : procfs_write x86_64 (bytes "BOGUS") 5 boot = Returned 5 boot)
    by (vm_compute; reflexivity).
  destruct (procfs_write_result_decodes x86_64 (bytes "BOGUS") 5 5 boot boot
              ltac:(lia) Hrun) as (H1 & _ & H3).
  split; [exact H1|exact H3].
Defined.

(** ** What [procfs_write] looks up *)

Lemma rtrim_split (l : list ascii) :
  exists w : list ascii,
    l = rtrim l ++ w /\ Forall (fun x => isspace x = true) w.
Proof.
  induction l as [|c l (w & Hl & Hw)]; [exists []; split; [reflexivity|constructor]|].
  cbn [rtrim]. destruct (rtrim l) as [|x r] eqn:E.
  - cbn [app] in Hl. subst l. destruct (isspace c) eqn:Hc.
    + exists (c :: w). split; [reflexivity|now constructor].
    + exists w. split; [reflexivity|exact Hw].
  - exists w. split; [|exact Hw]. cbn [app]. f_equal. exact Hl.
Qed.

Lemma rtrim_last (l : list ascii) :
  rtrim l = [] \/
  exists (pre : list ascii) (c : ascii),
    rtrim l = pre ++ [c] /\ isspace c = false.
Proof.
  induction l as [|a l IH]; [now left|].
  cbn [rtrim]. destruct (rtrim l) as [|x r] eqn:E.
  - destruct (isspace a) eqn:Ha; [now left|].
    right. exists [], a. split; [reflexivity|exact Ha].
  - right. destruct IH as [IH|(pre & c & Hpre & Hc)]; [discriminate IH|].
    exists (a :: pre), c. split; [|exact Hc]. cbn [app]. f_equal. exact Hpre.
Qed.

Lemma cstr_app_NUL_cut (p rest : list ascii) :
  cstr (p ++ NUL :: rest) = cstr (p ++ [NUL]).
Proof.
  induction p as [|c p IH]; cbn [app cstr]; [reflexivity|].
  destruct (Ascii.eqb c NUL); [reflexivity|]. f_equal. exact IH.
Qed.

Lemma cstr_no_NUL (buf : list ascii) :
  Forall (fun x => x <> NUL) (bytes (cstr buf)).
Proof.
  induction buf as [|c buf IH]; cbn [cstr]; [constructor|].
  destruct (Ascii.eqb c NUL) eqn:E; [constructor|].
  cbn [bytes list_ascii_of_string]. constructor; [|exact IH].
  now apply Ascii.eqb_neq.
Qed.

Lemma cstr_prefix (p : list ascii) :
  exists rest : list ascii, p ++ [NUL] = bytes (cstr (p ++ [NUL])) ++ NUL :: rest.
Proof.
  induction p as [|c p (rest & IH)]; cbn [app cstr].
  - exists []. reflexivity.
  - destruct (Ascii.eqb c NUL) eqn:E.
    + apply Ascii.eqb_eq in E. subst c. exists (p ++ [NUL]). reflexivity.
    + exists rest. cbn [bytes list_ascii_of_string app]. f_equal. exact IH.
Qed.

Lemma strim_end_0 (s : list ascii) : strim_end s 0 = O.
Proof. reflexivity. Qed.

(** [strim] on a buffer that holds a string and its NUL. *)
Lemma strim_rtrim (l rest : list ascii) :
  Forall (fun x => x <> NUL) l ->
  cstr (fst (strim (l ++ NUL :: rest))) = string_of_list_ascii (rtrim l).
Proof.
  intros Hl. destruct (rtrim_split l) as (w & Hsplit & Hw).
  destruct (rtrim_last l) as [Hnil|(pre & c & Hpre & Hc)].
  - rewrite Hnil in *. cbn [app] in Hsplit. subst l.
    unfold strim, strlen. rewrite cstr_app_NUL by exact Hl.
    rewrite length_string_of_list_ascii.
    destruct w as [|x w]; [reflexivity|].
    cbn [length Nat.eqb fst].
    change (S (length w)) with (length (@nil ascii) + length (x :: w))%nat.
    change ((x :: w) ++ NUL :: rest) with ([] ++ (x :: w) ++ NUL :: rest).
    rewrite strim_end_spaces by exact Hw.
    cbn [length strim_end app]. reflexivity.
  - rewrite Hpre in *. rewrite Hsplit, <- app_assoc.
    apply strim_trailing; [|exact Hc|exact Hw].
    rewrite Hsplit in Hl. now apply Forall_app in Hl as [Hl _].
Qed.

Lemma request_buffer (ubuf : list ascii) (count : Z) :
  0 <= count <= 31 -> count <= Z.of_nat (length ubuf) ->
  exists rest : list ascii,
    <[Z.to_nat count := NUL]>
      (fst (copy_from_user (replicate 32 NUL) ubuf count)) =
    take (Z.to_nat count) ubuf ++ NUL :: rest.
Proof.
  intros Hc Hl. rewrite copy_from_user_ok by lia. cbn [fst].
  rewrite drop_replicate.
  replace (32 - Z.to_nat count)%nat with (S (31 - Z.to_nat count)) by lia.
  cbn [replicate].
  rewrite insert_app_r_alt by (rewrite length_take; lia).
  replace (Z.to_nat count - length (take (Z.to_nat count) ubuf))%nat with O
    by (rewrite length_take; lia).
  eexists. reflexivity.
Qed.

Lemma request_rtrim (ubuf : list ascii) (count : Z) :
  0 <= count <= 31 -> count <= Z.of_nat (length ubuf) ->
  request ubuf count =
  string_of_list_ascii
    (rtrim (bytes (cstr (take (Z.to_nat count) ubuf ++ [NUL])))).
Proof.
  intros Hc Hl. unfold request.
  destruct (request_buffer ubuf count Hc Hl) as (rest & ->).
  destruct (cstr_prefix (take (Z.to_nat count) ubuf)) as (rest' & Hp).
  set (p := take (Z.to_nat count) ubuf) in *.
  assert (Hbuf : p ++ NUL :: rest =
                 bytes (cstr (p ++ [NUL])) ++ NUL :: rest' ++ rest).
  { apply (f_equal (fun x => x ++ rest)) in Hp.
    rewrite <- !app_assoc in Hp. exact Hp. }
  rewrite Hbuf. apply strim_rtrim, cstr_no_NUL.
Qed.

(** X5. The string a write looks up in the catalog is the bytes written,
    up to the first NUL among them if there is one, without the white
    space at their end; white space elsewhere stays. *)
Theorem request_is_rtrim (cfg : arch) (ubuf : list ascii) (count : Z)
  (s : kstate) :
  0 <= count <= 31 -> count <= Z.of_nat (length ubuf) ->
  request ubuf count =
    string_of_list_ascii
      (rtrim (bytes (cstr (take (Z.to_nat count) ubuf ++ [NUL])))) /\
  procfs_write cfg ubuf count s =
    (do_crash cfg
       (parse_ct_type
          (string_of_list_ascii
             (rtrim (bytes (cstr (take (Z.to_nat count) ubuf ++ [NUL])))))) ;;
     ret count) s.
Proof.
  intros Hc Hl. pose proof (request_rtrim ubuf count Hc Hl) as Hr.
  split; [exact Hr|]. unfold procfs_write.
  rewrite procfs_write_with_request by assumption. now rewrite Hr.
Qed.

Lemma request_is_rtrim_witness :
  request (bytes " BUG " ++ [NUL] ++ bytes "x ") 8 = " BUG".
Proof.
  destruct (request_is_rtrim x86_64 (bytes " BUG " ++ [NUL] ++ bytes "x ") 8
              boot ltac:(lia) ltac:(cbn; lia)) as [H _].
  rewrite H. reflexivity.
Defined.

(** ** [recursive_loop] from any counter *)





(** ** What each crash routine leaves when it returns *)

Lemma heap_lookup_new (hp : list block) (b : block) :
  (hp ++ [b]) !! length hp = Some b.
Proof. now apply list_lookup_middle. Qed.

Lemma heap_insert_new (hp : list block) (b b' : block) :
  <[length hp := b']> (hp ++ [b]) = hp ++ [b'].
Proof. rewrite insert_app_r_alt by lia. now rewrite Nat.sub_diag. Qed.

(** The state in which [do_crash] returns, kind by kind; the kinds that
    are missing never return. *)
Lemma do_crash_returned (cfg : arch) (which : Z) (s s' : kstate) :
  do_crash cfg which s = Returned tt s' ->
  match ctype_of_val which with
  | None | Some CT_NONE => s' = s
  | Some CT_OVERFLOW =>
      exists n : nat,
        s' = set_recur_count 0 (log_all (repeat (frame_fill cfg) (S n)) s)
  | Some CT_UNALIGNED_LOAD_STORE_WRITE =>
      let val := unaligned_val cfg (take 4 (drop 1 (align_data s))) in
      s' =
      set_align_data
        (take 1 (align_data s) ++ encode_u32 cfg val ++ drop 5 (align_data s))
        (log_all [EvLoad PAlignData 1 4; EvStore PAlignData 1 4 val] s)
  | Some CT_OVERWRITE_ALLOCATION =>
      let p := PHeap (length (heap s)) in
      let w := sizeof_unsigned_long cfg in
      let off := (1024 ÷ w) * w in
      oom s = false /\
      s' =
      {| recur_count := recur_count s; lock1_locked := lock1_locked s;
         lock2_locked := lock2_locked s; align_data := align_data s;
         uninterruptible := uninterruptible s;
         heap := heap s ++ [{| blk_size := 1020; blk_live := false |}];
         oom := oom s;
         corrupted :=
           if (0 <=? off) && (off + w <=? 1020) then corrupted s else true;
         trace :=
           trace s ++ [EvKmalloc 1020 p; EvStore p off w 0x12345678; EvKfree p]
      |}
  | Some CT_WRITE_AFTER_FREE =>
      let p := PHeap (length (heap s)) in
      oom s = false /\ uninterruptible s = false /\
      s' =
      {| recur_count := recur_count s; lock1_locked := lock1_locked s;
         lock2_locked := lock2_locked s; align_data := align_data s;
         uninterruptible := uninterruptible s;
         heap := heap s ++ [{| blk_size := 1024; blk_live := false |}];
         oom := oom s;
         corrupted := true;
         trace :=
           trace s ++
           [EvKmalloc 1024 p; EvKfree p; EvSchedule; EvMemset p 0 0x78 1024]
      |}
  | Some CT_SCHEDULING_WHILE_ATOMIC =>
      s' =
      log_all
        [ EvDownRead; EvReadLock; EvScheduleTimeoutInterruptible 1;
          EvReadUnlock; EvUpRead ] s
  | Some CT_DEADLOCK =>
      lock1_locked s = false /\ lock2_locked s = false /\
      s' =
      log_all
        [ EvSpinLock lock1; EvSpinLock lock2;
          EvSpinUnlock lock2; EvSpinUnlock lock1;
          EvSpinLock lock2; EvSpinLock lock1;
          EvSpinUnlock lock1; EvSpinUnlock lock2 ] s
  | Some _ => False
  end.
Proof.
  intros H. unfold do_crash in H.
  destruct (ctype_of_val which) as [k|]; [destruct k|]; cbv zeta in *;
    try discriminate H.
  - (* CT_NONE *) now inversion H.
  - (* CT_OVERFLOW *)
    unfold bind, ret in H.
    destruct (recursive_loop cfg (stack_room cfg) 0 s) as [v s1|h s1] eqn:E;
      [|discriminate H].
    inversion H; subst s1.
    apply recursive_loop_returned_any in E as (_ & n & E).
    exists n. exact E.
  - (* CT_UNALIGNED_LOAD_STORE_WRITE *)
    destruct s as [rc l1 l2 ad un hp om co tr].
    inversion H. unfold unaligned_val. run_kernel.
    f_equal. now rewrite <- app_assoc.
  - (* CT_OVERWRITE_ALLOCATION *)
    destruct s as [rc l1 l2 ad un hp om co tr]. run_kernel.
    destruct om; run_kernel_in H; [discriminate H|]. split; [reflexivity|].
    rewrite heap_lookup_new in H. run_kernel_in H.
    destruct ((0 <=? _) && (_ <=? 1020));
      rewrite heap_lookup_new in H; inversion H;
      rewrite heap_insert_new, <- !app_assoc; reflexivity.
  - (* CT_WRITE_AFTER_FREE *)
    destruct s as [rc l1 l2 ad un hp om co tr]. run_kernel.
    destruct om, un; run_kernel_in H; try discriminate H.
    { rewrite heap_lookup_new in H. discriminate H. }
    do 2 (split; [reflexivity|]).
    rewrite heap_lookup_new in H. run_kernel_in H.
    rewrite heap_insert_new, heap_lookup_new in H. run_kernel_in H.
    inversion H. rewrite <- !app_assoc; reflexivity.
  - (* CT_SCHEDULING_WHILE_ATOMIC *)
    destruct s as [rc l1 l2 ad un hp om co tr]. inversion H.
    run_kernel. f_equal. now rewrite <- !app_assoc.
  - (* CT_DEADLOCK *)
    destruct (lock1_locked s) eqn:H1.
    { unfold deadlock_splat, bind, spin_lock, locked in H.
      rewrite H1 in H. discriminate H. }
    destruct (lock2_locked s) eqn:H2.
    { destruct s as [rc l1 l2 ad un hp om co tr]. cbn in H1, H2. subst l1 l2.
      discriminate H. }
    rewrite (deadlock_splat_free s H1 H2) in H. inversion H. auto.
  - (* default *) now inversion H.
Qed.

Lemma ctype_of_val_inv (v : Z) (k : ctype) :
  ctype_of_val v = Some k -> v = ctype_val k.
Proof.
  destruct v as [|p|p]; [intros [= <-]; reflexivity| |discriminate].
  do 4 (try destruct p as [p|p|]); cbn; intros [= <-] || discriminate;
    reflexivity.
Qed.

Lemma ctype_of_val_val (k : ctype) : ctype_of_val (ctype_val k) = Some k.
Proof. destruct k; reflexivity. Qed.

Lemma ctype_of_val_none (v : Z) :
  ctype_of_val v = None <-> v < 0 \/ 14 < v.
Proof.
  split.
  - intros H. destruct (Z.lt_ge_cases v 0) as [|H0]; [now left|].
    destruct (Z.lt_ge_cases 14 v) as [|H14]; [now right|]. exfalso.
    assert (Hv : v = 0 \/ v = 1 \/ v = 2 \/ v = 3 \/ v = 4 \/ v = 5 \/ v = 6 \/
                 v = 7 \/ v = 8 \/ v = 9 \/ v = 10 \/ v = 11 \/ v = 12 \/
                 v = 13 \/ v = 14) by lia.
    repeat (destruct Hv as [-> |Hv]; [discriminate H|]). subst v.
    discriminate H.
  - intros Hv. destruct (ctype_of_val v) as [k|] eqn:E; [|reflexivity].
    apply ctype_of_val_inv in E. destruct k; cbn in E; lia.
Qed.

(** What a call that returns leaves as it found it. *)
Lemma do_crash_frame (cfg : arch) (which : Z) (s s' : kstate) :
  do_crash cfg which s = Returned tt s' ->
  lock1_locked s' = lock1_locked s /\
  lock2_locked s' = lock2_locked s /\
  uninterruptible s' = uninterruptible s /\
  oom s' = oom s /\
  (exists es : list event, trace s' = trace s ++ es) /\
  (exists bs : list block, heap s' = heap s ++ bs) /\
  (corrupted s = true -> corrupted s' = true).
Proof.
  intros H. apply do_crash_returned in H.
  destruct (ctype_of_val which) as [[]|]; cbv zeta in H;
    try contradiction;
    repeat match type of H with
           | _ /\ _ => let H0 := fresh in destruct H as [H0 H]
           | exists _, _ => let n := fresh "n" in destruct H as [n H]
           end;
    subst s'; destruct s as [rc l1 l2 ad un hp om co tr]; run_kernel;
    repeat match goal with
           | |- _ /\ _ => split
           | |- exists _, _ =>
               first [eexists; reflexivity
                     |exists []; rewrite app_nil_r; reflexivity]
           | |- _ -> _ => intros ->
           | |- context [if ?b then _ else _] => destruct b
           | |- _ => reflexivity || assumption
           end.
Qed.

Lemma procfs_write_inv (cfg : arch) (ubuf : list ascii) (count r : Z)
  (s s' : kstate) :
  procfs_write cfg ubuf count s = Returned r s' ->
  s' = s \/
  exists what : string, do_crash cfg (parse_ct_type what) s = Returned tt s'.
Proof.
  unfold procfs_write, procfs_write_with, ret.
  destruct (count >? _); [intros [= _ <-]; now left|].
  destruct (copy_from_user _ _ _) as [buf uncopied].
  destruct (negb (uncopied =? 0)); [intros [= _ <-]; now left|].
  destruct (strim _) as [buf' off]. unfold bind.
  destruct (do_crash cfg (parse_ct_type (cstr buf')) s) as [[] s1|h s1] eqn:E;
    intros [= _ <-].
  right. exists (cstr buf'). exact E.
Qed.

(** X8. A write that returns leaves the two spin locks, the state of the
    task and the allocator as it found them; it adds to the trace and to
    the heap without touching what was there, and it never clears the mark
    of a write that went out of its object. *)
Theorem procfs_write_frame (cfg : arch) (ubuf : list ascii) (count r : Z)
  (s s' : kstate) :
  procfs_write cfg ubuf count s = Returned r s' ->
  lock1_locked s' = lock1_locked s /\
  lock2_locked s' = lock2_locked s /\
  uninterruptible s' = uninterruptible s /\
  oom s' = oom s /\
  (exists es : list event, trace s' = trace s ++ es) /\
  (exists bs : list block, heap s' = heap s ++ bs) /\
  (corrupted s = true -> corrupted s' = true).
Proof.
  intros H. apply procfs_write_inv in H as [-> |(what & H)].
  - repeat split; try reflexivity; try (exists []; now rewrite app_nil_r).
    auto.
  - eapply do_crash_frame. exact H.
Qed.

Lemma procfs_write_frame_witness :
  exists s' : kstate,
    procfs_write x86_64 (bytes "WRITE_AFTER_FREE") 16 boot = Returned 16 s' /\
    lock1_locked s' = false /\ (exists bs, heap s' = [] ++ bs).
Proof.
  eexists. split; [vm_compute; reflexivity|].
  match goal with
  | |- context [heap ?s'] =>
      destruct (procfs_write_frame x86_64 (bytes "WRITE_AFTER_FREE") 16 16
                  boot s' ltac:(vm_compute; reflexivity))
        as (H1 & _ & _ & _ & _ & H6 & _)
  end.
  split; [exact H1|exact H6].
Defined.

(** ** Writes one after the other *)

Lemma write_all_frame (cfg : arch) (writes : list (list ascii * Z)) :
  forall (s s' : kstate) (rs : list Z),
    write_all cfg writes s = Returned rs s' ->
    length rs = length writes /\
    lock1_locked s' = lock1_locked s /\
    lock2_locked s' = lock2_locked s /\
    (exists es : list event, trace s' = trace s ++ es) /\
    (corrupted s = true -> corrupted s' = true).
Proof.
  induction writes as [|[ubuf count] writes IH]; intros s s' rs H.
  - inversion H. repeat split; auto. exists []. now rewrite app_nil_r.
  - cbn [write_all] in H. unfold bind at 1 in H.
    destruct (procfs_write cfg ubuf count s) as [r s1|h s1] eqn:E1;
      [|discriminate H].
    unfold bind, ret in H.
    destruct (write_all cfg writes s1) as [rs1 s2|h s2] eqn:E2;
      [|discriminate H].
    inversion H; subst rs s'.
    destruct (IH _ _ _ E2) as (Hlen & H1 & H2 & (es2 & Ht2) & Hco2).
    assert (Hstep : lock1_locked s1 = lock1_locked s /\
                    lock2_locked s1 = lock2_locked s /\
                    (exists es : list event, trace s1 = trace s ++ es) /\
                    (corrupted s = true -> corrupted s1 = true)).
    { apply procfs_write_inv in E1 as [-> |(what & E1)].
      - repeat split; auto. exists []. now rewrite app_nil_r.
      - apply do_crash_frame in E1. tauto. }
    destruct Hstep as (G1 & G2 & (es1 & Ht1) & Hco1).
    cbn [length]. repeat split; try congruence; auto.
    exists (es1 ++ es2). now rewrite Ht2, Ht1, app_assoc.
Qed.

(** X9. After any writes that all returned, started with both locks free,
    the locks are free again, so a write of [DEADLOCK] returns once more,
    with its eight lock events added to the trace: the routine can be run
    over and over, and between other routines that return. *)
Theorem deadlock_write_repeatable (cfg : arch)
  (writes : list (list ascii * Z)) (s s' : kstate) (rs : list Z) :
  lock1_locked s = false -> lock2_locked s = false ->
  write_all cfg writes s = Returned rs s' ->
  length rs = length writes /\
  procfs_write cfg (bytes "DEADLOCK") 8 s' =
  Returned 8
    (log_all
       [ EvSpinLock lock1; EvSpinLock lock2;
         EvSpinUnlock lock2; EvSpinUnlock lock1;
         EvSpinLock lock2; EvSpinLock lock1;
         EvSpinUnlock lock1; EvSpinUnlock lock2 ] s').
Proof.
  intros H1 H2 Hrun.
  destruct (write_all_frame _ _ _ _ _ Hrun) as (Hlen & G1 & G2 & _).
  split; [exact Hlen|]. unfold procfs_write.
  rewrite procfs_write_with_request by (cbn; lia).
  change (parse_ct_type (request (bytes "DEADLOCK") 8)) with 14.
  change (do_crash cfg 14) with deadlock_splat.
  assert (Hd := deadlock_splat_free s' ltac:(congruence) ltac:(congruence)).
  now rewrite (bind_returned _ _ _ _ _ Hd).
Qed.

Lemma deadlock_write_repeatable_witness :
  exists s' : kstate,
    write_all x86_64
      [(bytes "DEADLOCK", 8); (bytes "UNALIGNED_LOAD_STORE_WRITE", 26);
       (bytes "DEADLOCK", 8)] boot = Returned [8; 26; 8] s' /\
    returns (procfs_write x86_64 (bytes "DEADLOCK") 8 s') = true.
Proof.
  eexists. split; [vm_compute; reflexivity|].
  match goal with
  | |- context [procfs_write _ _ _ ?s'] =>
      destruct (deadlock_write_repeatable x86_64
                  [(bytes "DEADLOCK", 8);
                   (bytes "UNALIGNED_LOAD_STORE_WRITE", 26);
                   (bytes "DEADLOCK", 8)] boot s' [8; 26; 8]
                  eq_refl eq_refl ltac:(vm_compute; reflexivity))
        as [_ H]
  end.
  rewrite H. reflexivity.
Defined.

(** ** When [do_crash] does nothing *)



(** ** Which routines write out of bounds, and which sleep under a lock *)

Lemma overwrite_offset_out (w : Z) :
  0 < w -> (0 <=? 1024 ÷ w * w) && (1024 ÷ w * w + w <=? 1020) = false.
Proof.
  intros Hw. apply andb_false_iff. right. apply Z.leb_gt.
  pose proof (Z.quot_rem' 1024 w) as Hq.
  pose proof (Z.rem_bound_pos 1024 w ltac:(lia) Hw) as Hr. lia.
Qed.

(** X11. Three routines write outside the object they were given:
    [CT_CORRUPT_STACK], [CT_OVERWRITE_ALLOCATION] and
    [CT_WRITE_AFTER_FREE].  A call of [do_crash] that returns from a state
    that had no such write has one exactly when it ran one of these; for
    [CT_CORRUPT_STACK] this holds with nothing to show, since that call
    does not return. *)
Theorem do_crash_corrupts_iff (cfg : arch) (which : Z) (s s' : kstate) :
  0 < sizeof_unsigned_long cfg ->
  corrupted s = false ->
  do_crash cfg which s = Returned tt s' ->
  (corrupted s' = true <->
   which = ctype_val CT_CORRUPT_STACK \/
   which = ctype_val CT_OVERWRITE_ALLOCATION \/
   which = ctype_val CT_WRITE_AFTER_FREE).
Proof.
  intros Hw Hco H. apply do_crash_returned in H.
  destruct (ctype_of_val which) as [k|] eqn:E.
  2: { apply ctype_of_val_none in E. subst s'. rewrite Hco. cbn.
       split; [discriminate|lia]. }
  apply ctype_of_val_inv in E. subst which.
  destruct k; cbv zeta in H; try contradiction;
    repeat match type of H with
           | _ /\ _ => let H0 := fresh in destruct H as [H0 H]
           | exists _, _ => let n := fresh "n" in destruct H as [n H]
           end;
    subst s'; destruct s as [rc l1 l2 ad un hp om co tr];
    cbn [corrupted] in Hco; subst co; run_kernel;
    rewrite ?overwrite_offset_out by exact Hw;
    cbn [ctype_val]; split; intros G; try discriminate G; try lia; auto.
Qed.

Lemma do_crash_corrupts_iff_witness :
  corrupted
    (final_state (do_crash x86_64 (ctype_val CT_OVERWRITE_ALLOCATION) boot)) =
  true.
Proof.
  apply (do_crash_corrupts_iff x86_64 (ctype_val CT_OVERWRITE_ALLOCATION) boot
           (final_state
              (do_crash x86_64 (ctype_val CT_OVERWRITE_ALLOCATION) boot)));
    [reflexivity|reflexivity|vm_compute; reflexivity|].
  right. left. reflexivity.
Defined.

Lemma sleeps_atomic_fill (cfg : arch) (depth : Z) (n : nat) :
  sleeps_atomic depth (repeat (frame_fill cfg) n) = false.
Proof. induction n as [|n IH]; [reflexivity|exact IH]. Qed.

(** X12. Of the routines that return, exactly one sleeps while it holds a
    lock that forbids sleeping: [CT_SCHEDULING_WHILE_ATOMIC], which calls
    [schedule_timeout_interruptible] between [read_lock] and
    [read_unlock].  [CT_WRITE_AFTER_FREE] calls [schedule] too, with no
    lock held, and [CT_DEADLOCK] holds locks without sleeping. *)
Theorem do_crash_sleeps_atomic_iff (cfg : arch) (which : Z) (s s' : kstate)
  (es : list event) :
  do_crash cfg which s = Returned tt s' ->
  trace s' = trace s ++ es ->
  (sleeps_atomic 0 es = true <->
   which = ctype_val CT_SCHEDULING_WHILE_ATOMIC).
Proof.
  intros H Hes. apply do_crash_returned in H.
  destruct (ctype_of_val which) as [k|] eqn:E.
  2: { apply ctype_of_val_none in E. subst s'.
       rewrite <- (app_nil_r (trace s)) in Hes at 1.
       apply app_inv_head in Hes. subst es. cbn.
       split; [discriminate|lia]. }
  apply ctype_of_val_inv in E. subst which.
  destruct k; cbv zeta in H; try contradiction;
    repeat match type of H with
           | _ /\ _ => let H0 := fresh in destruct H as [H0 H]
           | exists _, _ => let n := fresh "n" in destruct H as [n H]
           end;
    subst s'; destruct s as [rc l1 l2 ad un hp om co tr];
    run_kernel_in Hes;
    match type of Hes with
    | ?t = ?t ++ _ => rewrite <- (app_nil_r t) in Hes at 1
    | _ => idtac
    end;
    apply app_inv_head in Hes; subst es;
    rewrite ?sleeps_atomic_fill; cbn [sleeps_atomic ctype_val Z.ltb Z.add
      Z.sub Z.compare orb Z.opp Z.pos_sub Pos.add Pos.succ Pos.compare
      Pos.compare_cont];
    split; intros G; try discriminate G; try lia; auto.
Qed.

Lemma do_crash_sleeps_atomic_iff_witness :
  sleeps_atomic 0
    [ EvDownRead; EvReadLock; EvScheduleTimeoutInterruptible 1;
      EvReadUnlock; EvUpRead ] = true.
Proof.
  apply (do_crash_sleeps_atomic_iff x86_64
           (ctype_val CT_SCHEDULING_WHILE_ATOMIC) boot
           (final_state
              (do_crash x86_64 (ctype_val CT_SCHEDULING_WHILE_ATOMIC) boot)));
    reflexivity.
Defined.

(** ** [CT_WRITE_AFTER_FREE] and [CT_UNALIGNED_LOAD_STORE_WRITE] *)

(** X13. With an allocator that serves the request and a task that can
    run, [CT_WRITE_AFTER_FREE] gets a block of 1024 bytes, frees it, calls
    [schedule] and then fills the 1024 bytes: the block is no longer
    allocated when it is written, so the guarded form of the access fails
    and the state is marked. *)
Theorem write_after_free_hits_freed_block (cfg : arch) (s : kstate) :
  oom s = false -> uninterruptible s = false ->
  exists s' : kstate,
    do_crash cfg (ctype_val CT_WRITE_AFTER_FREE) s = Returned tt s' /\
    trace s' =
      trace s ++
      [ EvKmalloc 1024 (PHeap (length (heap s)));
        EvKfree (PHeap (length (heap s)));
        EvSchedule;
        EvMemset (PHeap (length (heap s))) 0 0x78 1024 ] /\
    heap s' = heap s ++ [{| blk_size := 1024; blk_live := false |}] /\
    checked_access s' (PHeap (length (heap s))) 0 1024 = None /\
    corrupted s' = true.
Proof.
  intros Hoom Hun. destruct s as [rc l1 l2 ad un hp om co tr].
  cbn in Hoom, Hun. subst om un.
  unfold do_crash. cbn [ctype_val ctype_of_val]. cbv zeta. run_kernel.
  rewrite heap_lookup_new. run_kernel.
  rewrite heap_insert_new, heap_lookup_new. run_kernel.
  eexists. split; [reflexivity|]. run_kernel.
  rewrite heap_lookup_new. rewrite <- !app_assoc. auto.
Qed.

Lemma write_after_free_hits_freed_block_witness :
  exists s' : kstate,
    do_crash x86_64 (ctype_val CT_WRITE_AFTER_FREE) boot = Returned tt s' /\
    checked_access s' (PHeap 0) 0 1024 = None /\
    corrupted s' = true.
Proof.
  destruct (write_after_free_hits_freed_block x86_64 boot eq_refl eq_refl)
    as (s' & Hrun & _ & _ & Hacc & Hco).
  exists s'. split; [exact Hrun|]. split; [exact Hacc|exact Hco].
Defined.

Lemma unaligned_val_bytes (cfg : arch) (b1 b2 b3 b4 : Z) :
  0 <= b1 < 256 -> 0 <= b2 < 256 -> 0 <= b3 < 256 -> 0 <= b4 < 256 ->
  unaligned_val cfg [b1; b2; b3; b4] =
  if (b1 =? 0) && (b2 =? 0) && (b3 =? 0) && (b4 =? 0)
  then 0x87654321 else 0x12345678.
Proof.
  intros H1 H2 H3 H4. unfold unaligned_val, decode_u32.
  destruct (big_endian cfg); cbn [rev app le_decode];
    destruct (Z.eqb_spec b1 0), (Z.eqb_spec b2 0), (Z.eqb_spec b3 0),
      (Z.eqb_spec b4 0); cbn [andb];
    match goal with
    | |- (if ?e =? 0 then _ else _) = _ => destruct (Z.eqb_spec e 0)
    end; try reflexivity; lia.
Qed.

Lemma decode_encode_u32 (cfg : arch) (v : Z) :
  0 <= v < 2 ^ 32 -> decode_u32 cfg (encode_u32 cfg v) = v.
Proof.
  intros Hv. unfold decode_u32, encode_u32.
  destruct (big_endian cfg); rewrite ?rev_involutive;
    cbn [le_encode le_decode]; change (2 ^ 32) with 4294967296 in Hv;
    Z.div_mod_to_equations; lia.
Qed.

(** X14. [CT_UNALIGNED_LOAD_STORE_WRITE] always returns and stays within
    the five bytes of [align_data]: it leaves the first byte alone and
    overwrites the other four with [0x12345678], or with [0x87654321] when
    all four were zero, in the byte order of the machine, so that reading
    them back gives the value stored. *)
Theorem unaligned_store_stays_inside (cfg : arch) (s : kstate)
  (b0 b1 b2 b3 b4 : Z) :
  align_data s = [b0; b1; b2; b3; b4] ->
  0 <= b1 < 256 -> 0 <= b2 < 256 -> 0 <= b3 < 256 -> 0 <= b4 < 256 ->
  exists (s' : kstate) (v : Z),
    v = (if (b1 =? 0) && (b2 =? 0) && (b3 =? 0) && (b4 =? 0)
         then 0x87654321 else 0x12345678) /\
    do_crash cfg (ctype_val CT_UNALIGNED_LOAD_STORE_WRITE) s = Returned tt s' /\
    align_data s' = b0 :: encode_u32 cfg v /\
    length (align_data s') = 5%nat /\
    decode_u32 cfg (drop 1 (align_data s')) = v /\
    corrupted s' = corrupted s /\
    trace s' = trace s ++ [EvLoad PAlignData 1 4; EvStore PAlignData 1 4 v].
Proof.
  intros Had H1 H2 H3 H4.
  pose proof (unaligned_val_bytes cfg b1 b2 b3 b4 H1 H2 H3 H4) as Hv.
  destruct s as [rc l1 l2 ad un hp om co tr]. cbn in Had. subst ad.
  set (v := if (b1 =? 0) && (b2 =? 0) && (b3 =? 0) && (b4 =? 0)
            then 2271560481 else 305419896) in *.
  assert (Hrange : 0 <= v < 2 ^ 32).
  { subst v. change (2 ^ 32) with 4294967296.
    destruct ((b1 =? 0) && (b2 =? 0) && (b3 =? 0) && (b4 =? 0)); lia. }
  assert (Hlen : length (encode_u32 cfg v) = 4%nat)
    by (unfold encode_u32; destruct (big_endian cfg); reflexivity).
  exists {| recur_count := rc; lock1_locked := l1; lock2_locked := l2;
            align_data := b0 :: encode_u32 cfg v; uninterruptible := un;
            heap := hp; oom := om; corrupted := co;
            trace :=
              tr ++ [EvLoad PAlignData 1 4; EvStore PAlignData 1 4 v] |}, v.
  split; [reflexivity|]. split.
  { rewrite <- Hv. unfold unaligned_val.
    unfold do_crash. cbn [ctype_val ctype_of_val]. cbv zeta. run_kernel.
    change ((0 <=? Z.of_nat 1) && (Z.of_nat 1 + 4 <=? 5)) with true.
    change (Z.of_nat 1) with 1. run_kernel.
    cbn [take drop app]. rewrite app_nil_r, <- app_assoc. reflexivity. }
  cbn [align_data corrupted trace drop length].
  split; [reflexivity|]. split; [now rewrite Hlen|].
  split; [now apply decode_encode_u32|]. split; reflexivity.
Qed.

Lemma unaligned_store_stays_inside_witness :
  exists s' : kstate,
    do_crash x86_64 (ctype_val CT_UNALIGNED_LOAD_STORE_WRITE) boot =
      Returned tt s' /\
    align_data s' = [1; 0x78; 0x56; 0x34; 0x12].
Proof.
  destruct (unaligned_store_stays_inside x86_64 boot 1 2 3 4 5 eq_refl
              ltac:(lia) ltac:(lia) ltac:(lia) ltac:(lia))
    as (s' & v & Hv & Hrun & Had & _).
  exists s'. split; [exact Hrun|]. rewrite Had, Hv. reflexivity.
Defined.

(** ** The listing, line by line *)

Lemma unlines_app (pre rest : list string) :
  unlines (pre ++ rest) = unlines pre +:+ unlines rest.
Proof.
  induction pre as [|n pre IH]; [reflexivity|].
  cbn [app unlines foldr]. fold (unlines (pre ++ rest)). fold (unlines pre).
  rewrite IH, string_app_assoc. reflexivity.
Qed.

Lemma lines_of_line (n : string) :
  existsb (Ascii.eqb LF) (bytes n) = false ->
  forall (cur : list ascii) (text : string),
    lines_of cur (n +:+ String LF text) =
    string_of_list_ascii (rev cur ++ bytes n) :: lines_of [] text.
Proof.
  induction n as [|c n IH]; intros Hn cur text.
  - cbn [bytes list_ascii_of_string]. rewrite app_nil_r. reflexivity.
  - cbn [bytes list_ascii_of_string existsb] in Hn.
    apply orb_false_iff in Hn as [Hc Hn].
    rewrite string_app_cons. cbn [lines_of].
    rewrite Ascii.eqb_sym, Hc. rewrite (IH Hn).
    cbn [rev bytes list_ascii_of_string]. now rewrite <- app_assoc.
Qed.

Lemma lines_of_unlines (rest : list string) :
  Forall (fun n => existsb (Ascii.eqb LF) (bytes n) = false) rest ->
  lines_of [] (unlines rest) = rest.
Proof.
  induction 1 as [|n rest Hn _ IH]; [reflexivity|].
  cbn [unlines foldr]. fold (unlines rest).
  rewrite (lines_of_line n Hn). cbn [rev app]. rewrite IH.
  unfold bytes. now rewrite string_of_list_ascii_of_string.
Qed.

(** X15. Printing a table of names that hold no line feed into a
    [seq_file] that holds whole lines adds one line for each name, in the
    order of the table: cutting the text at the line feeds gives back the
    lines that were there, followed by the names. *)
Theorem procfs_read_from_lines (pre rest : list string) :
  Forall (fun n => existsb (Ascii.eqb LF) (bytes n) = false) pre ->
  Forall (fun n => existsb (Ascii.eqb LF) (bytes n) = false) rest ->
  lines_of [] (procfs_read_from rest (unlines pre)) = pre ++ rest.
Proof.
  intros Hpre Hrest.
  rewrite procfs_read_from_unlines, <- unlines_app.
  apply lines_of_unlines, Forall_app. now split.
Qed.

Lemma procfs_read_from_lines_witness :
  lines_of [] (fst (procfs_read EmptyString)) = ct_type.
Proof.
  apply (procfs_read_from_lines [] ct_type); [constructor|].
  repeat constructor.
Defined.

(** ** Which writes come back *)







(** ** Blank payloads, failed allocations, and the statics *)

Lemma rtrim_spaces (l : list ascii) :
  Forall (fun x => isspace x = true) l -> rtrim l = [].
Proof.
  induction 1 as [|c l Hc _ IH]; [reflexivity|].
  cbn [rtrim]. now rewrite IH, Hc.
Qed.

Lemma cstr_spaces (l : list ascii) :
  Forall (fun x => isspace x = true) l ->
  bytes (cstr (l ++ [NUL])) = l.
Proof.
  intros Hl. rewrite cstr_app_NUL.
  - unfold bytes. apply list_ascii_of_string_of_list_ascii.
  - eapply Forall_impl; [exact Hl|exact isspace_not_NUL].
Qed.

(** X17. A write of nothing, or of white space only, is served as a
    request for nothing: it returns the number of bytes written and leaves
    the state as it was. *)
Theorem procfs_write_blank (cfg : arch)
  (ubuf : list ascii) (count : Z) (s : kstate) :
  0 <= count <= 31 -> count <= Z.of_nat (length ubuf) ->
  Forall (fun x => isspace x = true) (take (Z.to_nat count) ubuf) ->
  request ubuf count = EmptyString /\
  procfs_write cfg ubuf count s = Returned count s.
Proof.
  intros Hc Hl Hsp.
  assert (Hr : request ubuf count = EmptyString).
  { rewrite request_rtrim by assumption.
    now rewrite (cstr_spaces _ Hsp), (rtrim_spaces _ Hsp). }
  split; [exact Hr|]. unfold procfs_write.
  rewrite procfs_write_with_request by assumption. now rewrite Hr.
Qed.

Lemma procfs_write_blank_witness :
  procfs_write x86_64 [" "%char; LF; "x"%char] 2 boot = Returned 2 boot.
Proof.
  apply (procfs_write_blank x86_64 [" "%char; LF; "x"%char] 2 boot);
    [lia|cbn; lia|repeat constructor].
Defined.

(** X18. Neither routine that allocates checks what [kmalloc] returns.
    When it returns NULL, [CT_OVERWRITE_ALLOCATION] stores through the
    null pointer, at the offset of the element it aims at, and
    [CT_WRITE_AFTER_FREE], after a [kfree(NULL)] that does nothing and a
    [schedule], fills from the null pointer: neither call comes back, and
    nothing is written. *)
Theorem kmalloc_failure_traps (cfg : arch) (s : kstate) :
  oom s = true ->
  do_crash cfg (ctype_val CT_OVERWRITE_ALLOCATION) s =
    Halted
      (Oops (1024 ÷ sizeof_unsigned_long cfg * sizeof_unsigned_long cfg))
      (log (EvKmalloc 1020 NULL) s) /\
  (uninterruptible s = false ->
   do_crash cfg (ctype_val CT_WRITE_AFTER_FREE) s =
     Halted (Oops 0)
       (log_all [EvKmalloc 1024 NULL; EvKfree NULL; EvSchedule] s)).
Proof.
  intros Hoom. destruct s as [rc l1 l2 ad un hp om co tr].
  cbn in Hoom. subst om. split.
  - reflexivity.
  - cbn [uninterruptible]. intros ->.
    unfold do_crash. cbn [ctype_val ctype_of_val]. cbv zeta. run_kernel.
    now rewrite <- !app_assoc.
Qed.

Lemma kmalloc_failure_traps_witness :
  returns
    (do_crash x86_64 (ctype_val CT_OVERWRITE_ALLOCATION)
       {| recur_count := 40; lock1_locked := false; lock2_locked := false;
          align_data := [1; 2; 3; 4; 5]; uninterruptible := false;
          heap := []; oom := true; corrupted := false; trace := [] |}) = false.
Proof.
  destruct (kmalloc_failure_traps x86_64
              {| recur_count := 40; lock1_locked := false;
                 lock2_locked := false; align_data := [1; 2; 3; 4; 5];
                 uninterruptible := false; heap := []; oom := true;
                 corrupted := false; trace := [] |} eq_refl) as [H _].
  rewrite H. reflexivity.
Defined.

(** X19. Each static of the module belongs to one routine: a call of
    [do_crash] that returns has changed the counter of [recursive_loop]
    only if it ran [CT_OVERFLOW], which leaves it at zero, [align_data]
    only if it ran [CT_UNALIGNED_LOAD_STORE_WRITE], and the heap only if
    it ran one of the two routines that allocate. *)
Theorem do_crash_statics (cfg : arch) (which : Z) (s s' : kstate) :
  do_crash cfg which s = Returned tt s' ->
  (recur_count s' = recur_count s \/
   which = ctype_val CT_OVERFLOW /\ recur_count s' = 0) /\
  (align_data s' = align_data s \/
   which = ctype_val CT_UNALIGNED_LOAD_STORE_WRITE) /\
  (heap s' = heap s \/
   which = ctype_val CT_OVERWRITE_ALLOCATION \/
   which = ctype_val CT_WRITE_AFTER_FREE).
Proof.
  intros H. apply do_crash_returned in H.
  destruct (ctype_of_val which) as [k|] eqn:E.
  2: { subst s'. auto. }
  apply ctype_of_val_inv in E. subst which.
  destruct k; cbv zeta in H; try contradiction;
    repeat match type of H with
           | _ /\ _ => let H0 := fresh in destruct H as [H0 H]
           | exists _, _ => let n := fresh "n" in destruct H as [n H]
           end;
    subst s'; destruct s as [rc l1 l2 ad un hp om co tr]; run_kernel;
    cbn [ctype_val]; auto 6.
Qed.

Lemma do_crash_statics_witness :
  recur_count
    (final_state
       (do_crash x86_64 (ctype_val CT_SCHEDULING_WHILE_ATOMIC) boot)) =
  recur_count boot.
Proof.
  destruct (do_crash_statics x86_64 (ctype_val CT_SCHEDULING_WHILE_ATOMIC)
              boot
              (final_state
                 (do_crash x86_64 (ctype_val CT_SCHEDULING_WHILE_ATOMIC) boot))
              ltac:(vm_compute; reflexivity))
    as [[H|[H _]] _]; [exact H|discriminate H].
Defined.

(** ** The shape of what is looked up *)

Lemma cstr_length (p : list ascii) :
  (length (bytes (cstr (p ++ [NUL]))) <= length p)%nat.
Proof.
  destruct (cstr_prefix p) as (rest & Hp).
  apply (f_equal length) in Hp. rewrite !length_app in Hp.
  cbn [length] in Hp. lia.
Qed.

(** X20. The string a write looks up is never longer than the bytes
    written, holds no NUL, and is empty or ends in a byte that is not
    white space: a name that ended in white space, or one of more than 31
    bytes, could not be asked for. *)
Theorem request_shape (ubuf : list ascii) (count : Z) :
  0 <= count <= 31 -> count <= Z.of_nat (length ubuf) ->
  Z.of_nat (String.length (request ubuf count)) <= count /\
  Forall (fun x => x <> NUL) (bytes (request ubuf count)) /\
  (request ubuf count = EmptyString \/
   exists (pre : list ascii) (c : ascii),
     bytes (request ubuf count) = pre ++ [c] /\ isspace c = false).
Proof.
  intros Hc Hl. rewrite request_rtrim by assumption.
  set (p := take (Z.to_nat count) ubuf).
  set (l := bytes (cstr (p ++ [NUL]))).
  assert (Hp : (length p <= Z.to_nat count)%nat)
    by (subst p; rewrite length_take; lia).
  pose proof (cstr_length p) as Hlen. fold l in Hlen.
  assert (HN : Forall (fun x => x <> NUL) l) by apply cstr_no_NUL.
  destruct (rtrim_split l) as (w & Hsplit & _).
  unfold bytes. rewrite list_ascii_of_string_of_list_ascii.
  rewrite length_string_of_list_ascii.
  split; [|split].
  - apply (f_equal length) in Hsplit. rewrite length_app in Hsplit. lia.
  - rewrite Hsplit in HN. now apply Forall_app in HN as [HN _].
  - destruct (rtrim_last l) as [-> |H]; [now left|now right].
Qed.

Lemma request_shape_witness :
  Z.of_nat (String.length (request (bytes "BUG  ") 5)) <= 5.
Proof.
  apply (request_shape (bytes "BUG  ") 5); [lia|cbn; lia].
Defined.
